(** * Earthquake sonifier: the scheduling engine of [useEarthquakeSonifier]

    A shallow embedding of the hook [useEarthquakeSonifier] (the version with
    the ambient drone, two-layer event voices and visual callbacks) and of the
    timeline arithmetic it shares with the earlier, drone-less version.

    JavaScript numbers are IEEE-754 binary64 values.  The code below is
    written once, over an interface [JsNumber] of the operations the hook
    uses, and read at two instances:

    - [binary64]: the Standard Library's executable specification of IEEE-754
      ([SpecFloat], precision 53, emax 1024), bit-exact, used to evaluate the
      code on concrete inputs;
    - [xnum]: exact rational arithmetic extended with NaN and the two
      infinities, i.e. binary64 without rounding (and without a signed
      zero), used for the general theorems. *)

From Stdlib Require Import ZArith QArith Qround Qminmax Lqa Lia Bool List.
From Stdlib Require Import Floats.SpecFloat.
From stdpp Require Import base option list strings gmap.

Set Default Proof Using "Type".
Local Open Scope Z_scope.

(** ** The numbers of the source *)

Class JsNumber (N : Type) := {
  (** the number written as the integer literal [z] *)
  of_Z : Z -> N;
  NaN : N;
  Infinity : N;
  js_neg : N -> N;
  js_add : N -> N -> N;
  js_sub : N -> N -> N;
  js_mul : N -> N -> N;
  js_div : N -> N -> N;
  (** [Number.isNaN] *)
  isNaN : N -> bool;
  (** [a < b] and [a === b] *)
  js_lt : N -> N -> bool;
  js_eq : N -> N -> bool;
  (** [Math.min(a, b)], [Math.max(a, b)] and [Math.floor] *)
  Math_min : N -> N -> N;
  Math_max : N -> N -> N;
  Math_floor : N -> N;
  (** the array index a number denotes when used as a property key:
      [Some i] for a non-negative integer, [None] otherwise
      (the lookup then yields [undefined]) *)
  to_index : N -> option nat
}.

Declare Scope js_scope.
Delimit Scope js_scope with js.
Infix "+" := js_add : js_scope.
Infix "-" := js_sub : js_scope.
Infix "*" := js_mul : js_scope.
Infix "/" := js_div : js_scope.
Infix "<?" := js_lt : js_scope.
Infix "===" := js_eq (at level 70, no associativity) : js_scope.

Section Numbers.
Context {N : Type} `{JsNumber N}.
Local Open Scope js_scope.

(** The decimal literal [m / 10^k], e.g. [dec 2 2] for [0.02]: the ratio of
    two integers that binary64 represents exactly, divided once, which is
    the correctly rounded value the literal denotes. *)
Definition dec (m : Z) (k : nat) : N := of_Z m / of_Z (10 ^ Z.of_nat k).

Definition js_le (a b : N) : bool := (a <? b) || (a === b).

Definition isFinite (a : N) : bool :=
  negb (isNaN a) && (a <? Infinity) && (js_neg Infinity <? a).

(** ToBoolean on a number: [0], [-0] and [NaN] are falsy. *)
Definition truthy (a : N) : bool := negb (isNaN a || (a === of_Z 0)).

(** [a || b] on numbers. *)
Definition or_else (a b : N) : N := if truthy a then a else b.

(** [Math.min(...xs)] and [Math.max(...xs)]: the spread call folds the
    binary operation from [Infinity], respectively [-Infinity]. *)
Definition Math_min_list (xs : list N) : N := foldr Math_min Infinity xs.
Definition Math_max_list (xs : list N) : N := foldr Math_max (js_neg Infinity) xs.

(** *** [mapRange] *)

Definition mapRange (value inMin inMax outMin outMax : N) : N :=
  if isNaN value then outMin
  else
    let clamped := Math_min inMax (Math_max inMin value) in
    let norm :=
      if inMax === inMin then of_Z 0
      else (clamped - inMin) / (inMax - inMin) in
    outMin + norm * (outMax - outMin).

(** The reference definition, after the specification's words: NaN maps to
    [outMin]; a degenerate input range maps to [outMin]; otherwise the value
    is clamped into [[inMin, inMax]] and interpolated linearly. *)
Definition clamp_ref (lo hi v : N) : N :=
  if v <? lo then lo else if hi <? v then hi else v.

End Numbers.

(** ** Exact arithmetic: rationals with NaN and the infinities *)

Inductive xnum : Type :=
  | XNaN
  | XInf (negative : bool)
  | XFin (q : Q).

Module Exact.
Definition sgn_neg (q : Q) : bool := if Qlt_le_dec q 0 then true else false.
Definition is_zero (q : Q) : bool := Qeq_bool q 0.

Definition neg (a : xnum) : xnum :=
  match a with
  | XNaN => XNaN
  | XInf s => XInf (negb s)
  | XFin q => XFin (- q)
  end.

Definition add (a b : xnum) : xnum :=
  match a, b with
  | XNaN, _ | _, XNaN => XNaN
  | XInf s, XInf s' => if Bool.eqb s s' then XInf s else XNaN
  | XInf s, XFin _ => XInf s
  | XFin _, XInf s => XInf s
  | XFin p, XFin q => XFin (p + q)
  end.

Definition sub (a b : xnum) : xnum := add a (neg b).

Definition mul (a b : xnum) : xnum :=
  match a, b with
  | XNaN, _ | _, XNaN => XNaN
  | XInf s, XInf s' => XInf (xorb s s')
  | XInf s, XFin q | XFin q, XInf s =>
      if is_zero q then XNaN else XInf (xorb s (sgn_neg q))
  | XFin p, XFin q => XFin (p * q)
  end.

Definition div (a b : xnum) : xnum :=
  match a, b with
  | XNaN, _ | _, XNaN => XNaN
  | XInf _, XInf _ => XNaN
  | XInf s, XFin q => XInf (xorb s (sgn_neg q))
  | XFin _, XInf _ => XFin 0
  | XFin p, XFin q =>
      if is_zero q
      then (if is_zero p then XNaN else XInf (sgn_neg p))
      else XFin (p / q)
  end.

Definition isNaN (a : xnum) : bool :=
  match a with XNaN => true | _ => false end.

Definition lt (a b : xnum) : bool :=
  match a, b with
  | XNaN, _ | _, XNaN => false
  | XInf s, XInf s' => s && negb s'
  | XInf s, XFin _ => s
  | XFin _, XInf s => negb s
  | XFin p, XFin q => if Qlt_le_dec p q then true else false
  end.

Definition seq (a b : xnum) : bool :=
  match a, b with
  | XNaN, _ | _, XNaN => false
  | XInf s, XInf s' => Bool.eqb s s'
  | XFin p, XFin q => Qeq_bool p q
  | _, _ => false
  end.

Definition min (a b : xnum) : xnum :=
  if isNaN a || isNaN b then XNaN else if lt b a then b else a.

Definition max (a b : xnum) : xnum :=
  if isNaN a || isNaN b then XNaN else if lt a b then b else a.

Definition floor (a : xnum) : xnum :=
  match a with
  | XFin q => XFin (inject_Z (Qfloor q))
  | _ => a
  end.

Definition to_index (a : xnum) : option nat :=
  match a with
  | XFin q =>
      let z := Qfloor q in
      if Qeq_bool q (inject_Z z) && (0 <=? z) && (z <? 2 ^ 32 - 1)
      then Some (Z.to_nat z) else None
  | _ => None
  end.
End Exact.

#[export] Instance xnum_number : JsNumber xnum := {|
  of_Z z := XFin (inject_Z z);
  NaN := XNaN;
  Infinity := XInf false;
  js_neg := Exact.neg;
  js_add := Exact.add;
  js_sub := Exact.sub;
  js_mul := Exact.mul;
  js_div := Exact.div;
  isNaN := Exact.isNaN;
  js_lt := Exact.lt;
  js_eq := Exact.seq;
  Math_min := Exact.min;
  Math_max := Exact.max;
  Math_floor := Exact.floor;
  to_index := Exact.to_index
|}.

(** ** IEEE-754 binary64, as the JavaScript engine computes *)

Definition binary64 : Type := spec_float.

Module B64.
Definition prec : Z := 53.
Definition emax : Z := 1024.

Definition of_Z (z : Z) : binary64 := binary_normalize prec emax z 0 false.

Definition isNaN (a : binary64) : bool :=
  match a with S754_nan => true | _ => false end.

Definition is_neg_zero (a : binary64) : bool :=
  match a with S754_zero true => true | _ => false end.

(** [Math.min] and [Math.max] order [-0] below [+0]. *)
Definition min (a b : binary64) : binary64 :=
  if isNaN a || isNaN b then S754_nan
  else if SFltb b a then b
  else if SFltb a b then a
  else if is_neg_zero b then b else a.

Definition max (a b : binary64) : binary64 :=
  if isNaN a || isNaN b then S754_nan
  else if SFltb a b then b
  else if SFltb b a then a
  else if is_neg_zero a then b else a.

(** [Math.floor]: an integer is left as it is; otherwise the magnitude
    [m * 2^e] with [e < 0] is below [2^53] and its integer part is exact. *)
Definition floor (a : binary64) : binary64 :=
  match a with
  | S754_finite s m e =>
      if 0 <=? e then a
      else
        let q := Z.shiftr (Zpos m) (- e) in
        if s then
          let c := if Zpos m =? Z.shiftl q (- e) then q else q + 1 in
          binary_normalize prec emax (- c) 0 true
        else binary_normalize prec emax q 0 false
  | _ => a
  end.

Definition to_index (a : binary64) : option nat :=
  match a with
  | S754_zero _ => Some 0%nat
  | S754_finite false m e =>
      if 0 <=? e then
        (if e <? 32 then
           let z := Z.shiftl (Zpos m) e in
           if z <? 2 ^ 32 - 1 then Some (Z.to_nat z) else None
         else None)
      else
        let q := Z.shiftr (Zpos m) (- e) in
        if (Zpos m =? Z.shiftl q (- e)) && (q <? 2 ^ 32 - 1)
        then Some (Z.to_nat q) else None
  | _ => None
  end.
End B64.

#[export] Instance binary64_number : JsNumber binary64 := {|
  of_Z := B64.of_Z;
  NaN := S754_nan;
  Infinity := S754_infinity false;
  js_neg := SFopp;
  js_add := SFadd B64.prec B64.emax;
  js_sub := SFsub B64.prec B64.emax;
  js_mul := SFmul B64.prec B64.emax;
  js_div := SFdiv B64.prec B64.emax;
  isNaN := B64.isNaN;
  js_lt := SFltb;
  js_eq := SFeqb;
  Math_min := B64.min;
  Math_max := B64.max;
  Math_floor := B64.floor;
  to_index := B64.to_index
|}.


(** ** The platform: Web Audio nodes, the audio clock and window timers *)

Definition node_id : Type := nat.
(** [window.setTimeout] handles are positive integers. *)
Definition timer_id : Type := nat.

Inductive node_kind : Type :=
  | OscillatorNode | AudioBufferSourceNode | GainNode | BiquadFilterNode
  | StereoPannerNode | DelayNode | ConvolverNode | AudioBuffer.

Inductive param : Type := Gain | Pan | Frequency | FilterQ | DelayTime.

Section Engine.
Context {N : Type} `{JsNumber N}.
Local Open Scope js_scope.

Record EarthquakeFeature : Type := {
  mag : N;
  time : N;
  place : string;
  lon : N;
  lat : N;
  depthKm : N
}.

(** An event on an AudioParam's automation timeline. *)
Inductive auto_event : Type :=
  | SetValueAtTime (v t : N)
  | LinearRampToValueAtTime (v t : N).

Definition ev_time (e : auto_event) : N :=
  match e with SetValueAtTime _ t | LinearRampToValueAtTime _ t => t end.

(** The two closures the hook hands to [window.setTimeout].  The natural
    number of a visual callback is not in the source: it records which
    scheduling pass of [start] armed the timer. *)
Inductive callback : Type :=
  | VisualCb (run : nat) (feature : EarthquakeFeature)
  | EndCb.

(** What the hook asks of the platform, in the order it asks. *)
Inductive command : Type :=
  | Create (n : node_id) (k : node_kind)
  | Resume
  | Close
  | SetValue (n : node_id) (p : param) (v : N)
  | SetType (n : node_id) (ty : string)
  | SetBuffer (n : node_id) (b : node_id)
  | Connect (src : node_id) (dst : option node_id)
  | ParamCancel (n : node_id) (p : param) (t : N)
  | ParamSet (n : node_id) (p : param) (v t : N)
  | ParamRamp (n : node_id) (p : param) (v t : N)
  (** the pitch of an event voice is kept as its semitone offset:
      [SetPitch n root s t] stands for
      [frequency.setValueAtTime(root * Math.pow(2, s / 12), t)] *)
  | SetPitch (n : node_id) (root : N) (semis : option Z) (t : N)
  | SourceStart (n : node_id) (t : N)
  | SourceStop (n : node_id) (t : N)
  | SetTimeout (id : timer_id) (delayMs : N)
  | ClearTimeout (id : timer_id)
  | OnEvent (feature : EarthquakeFeature).

Record source : Type := {
  src_start : N;
  src_stop : option N;
  src_ended : bool
}.

Inductive ctx_state : Type := Suspended | Running.

Record DroneNodes : Type := {
  oscs : list node_id;
  filter : node_id;
  panner : node_id;
  gain : node_id;
  delay : node_id;
  delayFeedback : node_id;
  reverb : node_id;
  reverbSend : node_id
}.

(** The hook's refs and React state.  [runs] is not in the source: it
    counts the scheduling passes of [start]. *)
Record Hook : Type := {
  audioCtxRef : option ctx_state;
  droneRef : option DroneNodes;
  endTimeoutRef : option timer_id;
  transientNodesRef : list node_id;
  noiseBufferRef : option node_id;
  reverbBufferRef : option node_id;
  visualTimeoutsRef : list timer_id;
  isPlaying : bool;
  runs : nat
}.

Record Platform : Type := {
  (** [window] has [AudioContext] or [webkitAudioContext] *)
  hasAudioContext : bool;
  (** [ctx.currentTime] *)
  clock : N;
  (** what reading [.value] of the drone's main gain returns now *)
  gainReading : N;
  (** the sources that were started *)
  sources : gmap node_id source;
  (** the automation timeline of each gain parameter *)
  automation : gmap node_id (list auto_event);
  (** the pending timers *)
  timers : gmap timer_id callback;
  next_timer : timer_id;
  next_node : node_id;
  trace : list command
}.

Record World : Type := { hook : Hook; plat : Platform }.

(** *** Field updates *)

Definition upd_hook (f : Hook -> Hook) (w : World) : World :=
  {| hook := f (hook w); plat := plat w |}.
Definition upd_plat (f : Platform -> Platform) (w : World) : World :=
  {| hook := hook w; plat := f (plat w) |}.

Definition with_audioCtxRef v (h : Hook) : Hook :=
  {| audioCtxRef := v; droneRef := droneRef h;
     endTimeoutRef := endTimeoutRef h;
     transientNodesRef := transientNodesRef h;
     noiseBufferRef := noiseBufferRef h;
     reverbBufferRef := reverbBufferRef h;
     visualTimeoutsRef := visualTimeoutsRef h;
     isPlaying := isPlaying h; runs := runs h |}.
Definition with_droneRef v (h : Hook) : Hook :=
  {| audioCtxRef := audioCtxRef h; droneRef := v;
     endTimeoutRef := endTimeoutRef h;
     transientNodesRef := transientNodesRef h;
     noiseBufferRef := noiseBufferRef h;
     reverbBufferRef := reverbBufferRef h;
     visualTimeoutsRef := visualTimeoutsRef h;
     isPlaying := isPlaying h; runs := runs h |}.
Definition with_endTimeoutRef v (h : Hook) : Hook :=
  {| audioCtxRef := audioCtxRef h; droneRef := droneRef h;
     endTimeoutRef := v;
     transientNodesRef := transientNodesRef h;
     noiseBufferRef := noiseBufferRef h;
     reverbBufferRef := reverbBufferRef h;
     visualTimeoutsRef := visualTimeoutsRef h;
     isPlaying := isPlaying h; runs := runs h |}.
Definition with_transientNodesRef v (h : Hook) : Hook :=
  {| audioCtxRef := audioCtxRef h; droneRef := droneRef h;
     endTimeoutRef := endTimeoutRef h;
     transientNodesRef := v;
     noiseBufferRef := noiseBufferRef h;
     reverbBufferRef := reverbBufferRef h;
     visualTimeoutsRef := visualTimeoutsRef h;
     isPlaying := isPlaying h; runs := runs h |}.
Definition with_noiseBufferRef v (h : Hook) : Hook :=
  {| audioCtxRef := audioCtxRef h; droneRef := droneRef h;
     endTimeoutRef := endTimeoutRef h;
     transientNodesRef := transientNodesRef h;
     noiseBufferRef := v;
     reverbBufferRef := reverbBufferRef h;
     visualTimeoutsRef := visualTimeoutsRef h;
     isPlaying := isPlaying h; runs := runs h |}.
Definition with_reverbBufferRef v (h : Hook) : Hook :=
  {| audioCtxRef := audioCtxRef h; droneRef := droneRef h;
     endTimeoutRef := endTimeoutRef h;
     transientNodesRef := transientNodesRef h;
     noiseBufferRef := noiseBufferRef h;
     reverbBufferRef := v;
     visualTimeoutsRef := visualTimeoutsRef h;
     isPlaying := isPlaying h; runs := runs h |}.
Definition with_visualTimeoutsRef v (h : Hook) : Hook :=
  {| audioCtxRef := audioCtxRef h; droneRef := droneRef h;
     endTimeoutRef := endTimeoutRef h;
     transientNodesRef := transientNodesRef h;
     noiseBufferRef := noiseBufferRef h;
     reverbBufferRef := reverbBufferRef h;
     visualTimeoutsRef := v;
     isPlaying := isPlaying h; runs := runs h |}.
Definition with_isPlaying v (h : Hook) : Hook :=
  {| audioCtxRef := audioCtxRef h; droneRef := droneRef h;
     endTimeoutRef := endTimeoutRef h;
     transientNodesRef := transientNodesRef h;
     noiseBufferRef := noiseBufferRef h;
     reverbBufferRef := reverbBufferRef h;
     visualTimeoutsRef := visualTimeoutsRef h;
     isPlaying := v; runs := runs h |}.
Definition with_runs v (h : Hook) : Hook :=
  {| audioCtxRef := audioCtxRef h; droneRef := droneRef h;
     endTimeoutRef := endTimeoutRef h;
     transientNodesRef := transientNodesRef h;
     noiseBufferRef := noiseBufferRef h;
     reverbBufferRef := reverbBufferRef h;
     visualTimeoutsRef := visualTimeoutsRef h;
     isPlaying := isPlaying h; runs := v |}.

Definition with_clock c g (p : Platform) : Platform :=
  {| hasAudioContext := hasAudioContext p; clock := c; gainReading := g;
     sources := sources p; automation := automation p;
     timers := timers p; next_timer := next_timer p;
     next_node := next_node p; trace := trace p |}.
Definition with_sources v (p : Platform) : Platform :=
  {| hasAudioContext := hasAudioContext p; clock := clock p;
     gainReading := gainReading p;
     sources := v; automation := automation p;
     timers := timers p; next_timer := next_timer p;
     next_node := next_node p; trace := trace p |}.
Definition with_automation v (p : Platform) : Platform :=
  {| hasAudioContext := hasAudioContext p; clock := clock p;
     gainReading := gainReading p;
     sources := sources p; automation := v;
     timers := timers p; next_timer := next_timer p;
     next_node := next_node p; trace := trace p |}.
Definition with_timers v n (p : Platform) : Platform :=
  {| hasAudioContext := hasAudioContext p; clock := clock p;
     gainReading := gainReading p;
     sources := sources p; automation := automation p;
     timers := v; next_timer := n;
     next_node := next_node p; trace := trace p |}.
Definition with_next_node v (p : Platform) : Platform :=
  {| hasAudioContext := hasAudioContext p; clock := clock p;
     gainReading := gainReading p;
     sources := sources p; automation := automation p;
     timers := timers p; next_timer := next_timer p;
     next_node := v; trace := trace p |}.
Definition with_trace v (p : Platform) : Platform :=
  {| hasAudioContext := hasAudioContext p; clock := clock p;
     gainReading := gainReading p;
     sources := sources p; automation := automation p;
     timers := timers p; next_timer := next_timer p;
     next_node := next_node p; trace := v |}.

(** *** Computations that read and write the world and may throw *)

Inductive outcome (A : Type) : Type :=
  | Ret (a : A)
  | Throw.
Arguments Ret {A} a.
Arguments Throw {A}.

Definition M (A : Type) : Type := World -> outcome A * World.

Definition ret {A} (a : A) : M A := fun w => (Ret a, w).
Definition throw {A} : M A := fun w => (Throw, w).
Definition bind {A B} (m : M A) (k : A -> M B) : M B :=
  fun w => match m w with
           | (Ret a, w') => k a w'
           | (Throw, w') => (Throw, w')
           end.
(** [try { m } catch { }] *)
Definition try_catch (m : M unit) : M unit :=
  fun w => (Ret tt, snd (m w)).

Definition get {A} (f : World -> A) : M A := fun w => (Ret (f w), w).
Definition modify (f : World -> World) : M unit := fun w => (Ret tt, f w).

Fixpoint for_each {A} (xs : list A) (body : A -> M unit) : M unit :=
  match xs with
  | [] => ret tt
  | x :: xs' => bind (body x) (fun _ => for_each xs' body)
  end.

Notation "x <- m ;; k" := (bind m (fun x => k))
  (at level 100, m at next level, right associativity) : js_scope.
Notation "m ;;; k" := (bind m (fun _ => k))
  (at level 100, right associativity) : js_scope.

(** *** Platform calls *)

Definition emit (c : command) : M unit :=
  modify (upd_plat (fun p => with_trace (trace p ++ [c]) p)).

Definition currentTime : M N := get (fun w => clock (plat w)).

Definition create (k : node_kind) : M node_id :=
  n <- get (fun w => next_node (plat w)) ;;
  modify (upd_plat (with_next_node (S n))) ;;;
  emit (Create n k) ;;;
  ret n.

(** A time handed to the audio clock must be a finite, non-negative
    number, a parameter value a finite one; the platform throws a
    RangeError or TypeError otherwise. *)
Definition valid_time (t : N) : bool := isFinite t && negb (t <? of_Z 0).

Definition schedule (n : node_id) (e : auto_event) : M unit :=
  modify (upd_plat (fun p =>
    with_automation
      (<[n := default [] (automation p !! n) ++ [e]]> (automation p)) p)).

(** [param.cancelScheduledValues(t)]: drops the events at or after [t]. *)
Definition cancelScheduledValues (n : node_id) (p : param) (t : N)
  : M unit :=
  if valid_time t then
    modify (upd_plat (fun pl =>
      with_automation
        (<[n := List.filter (fun e => ev_time e <? t)
                  (default [] (automation pl !! n))]> (automation pl)) pl)) ;;;
    emit (ParamCancel n p t)
  else throw.

Definition setValueAtTime (n : node_id) (p : param) (v t : N) : M unit :=
  if isFinite v && valid_time t then
    (match p with
     | Gain => schedule n (SetValueAtTime v t)
     | _ => ret tt
     end) ;;;
    emit (ParamSet n p v t)
  else throw.

Definition linearRampToValueAtTime (n : node_id) (p : param) (v t : N)
  : M unit :=
  if isFinite v && valid_time t then
    (match p with
     | Gain => schedule n (LinearRampToValueAtTime v t)
     | _ => ret tt
     end) ;;;
    emit (ParamRamp n p v t)
  else throw.

(** [osc.frequency.setValueAtTime(root * Math.pow(2, semis / 12), time)],
    where [semis] is [undefined] for a lookup out of the table: the
    frequency is then NaN and the call throws. *)
Definition setPitchAtTime (n : node_id) (root : N) (semis : option Z)
    (t : N) : M unit :=
  if bool_decide (is_Some semis) && valid_time t
  then emit (SetPitch n root semis t)
  else throw.

(** [source.start(t)]: InvalidStateError when started before. *)
Definition sourceStart (n : node_id) (t : N) : M unit :=
  srcs <- get (fun w => sources (plat w)) ;;
  match srcs !! n with
  | Some _ => throw
  | None =>
      if valid_time t then
        modify (upd_plat (with_sources
          (<[n := {| src_start := t; src_stop := None;
                     src_ended := false |}]> srcs))) ;;;
        emit (SourceStart n t)
      else throw
  end.

(** [source.stop(t)]: InvalidStateError when the source was never started.
    Engines differ on a source that has already finished; the model takes
    the hostile reading and throws there too. *)
Definition sourceStop (n : node_id) (t : N) : M unit :=
  srcs <- get (fun w => sources (plat w)) ;;
  match srcs !! n with
  | Some s =>
      if negb (src_ended s) && valid_time t then
        modify (upd_plat (with_sources
          (<[n := {| src_start := src_start s; src_stop := Some t;
                     src_ended := false |}]> srcs))) ;;;
        emit (SourceStop n t)
      else throw
  | None => throw
  end.

Definition setTimeout (cb : callback) (delayMs : N) : M timer_id :=
  id <- get (fun w => next_timer (plat w)) ;;
  modify (upd_plat (fun p => with_timers (<[id := cb]> (timers p)) (S id) p)) ;;;
  emit (SetTimeout id delayMs) ;;;
  ret id.

Definition clearTimeout (id : timer_id) : M unit :=
  modify (upd_plat (fun p =>
    with_timers (base.delete id (timers p)) (next_timer p) p)) ;;;
  emit (ClearTimeout id).

Definition connect (src : node_id) (dst : option node_id) : M unit :=
  emit (Connect src dst).

(** *** The hook *)

Definition BASE_GAIN : N := dec 6 2.

Definition isSupported : M bool := get (fun w => hasAudioContext (plat w)).

(** [fresh] is the state in which the platform hands out a new context. *)
Definition getAudioContext (fresh : ctx_state) : M (option ctx_state) :=
  sup <- isSupported ;;
  if negb sup then ret None
  else
    cur <- get (fun w => audioCtxRef (hook w)) ;;
    match cur with
    | Some st => ret (Some st)
    | None =>
        modify (upd_hook (with_audioCtxRef (Some fresh))) ;;;
        ret (Some fresh)
    end.

Definition getNoiseBuffer : M node_id :=
  cur <- get (fun w => noiseBufferRef (hook w)) ;;
  match cur with
  | Some b => ret b
  | None =>
      buffer <- create AudioBuffer ;;
      modify (upd_hook (with_noiseBufferRef (Some buffer))) ;;;
      ret buffer
  end.

Definition createImpulseResponse : M node_id := create AudioBuffer.

Definition getReverbBuffer : M node_id :=
  cur <- get (fun w => reverbBufferRef (hook w)) ;;
  match cur with
  | Some b => ret b
  | None =>
      impulse <- createImpulseResponse ;;
      modify (upd_hook (with_reverbBufferRef (Some impulse))) ;;;
      ret impulse
  end.

Definition ensureDrone : M DroneNodes :=
  cur <- get (fun w => droneRef (hook w)) ;;
  match cur with
  | Some d => ret d
  | None =>
      osc1 <- create OscillatorNode ;;
      osc2 <- create OscillatorNode ;;
      osc3 <- create OscillatorNode ;;
      filter <- create BiquadFilterNode ;;
      panner <- create StereoPannerNode ;;
      gain <- create GainNode ;;
      delay <- create DelayNode ;;
      delayFeedback <- create GainNode ;;
      reverb <- create ConvolverNode ;;
      rb <- getReverbBuffer ;;
      emit (SetBuffer reverb rb) ;;;
      reverbSend <- create GainNode ;;
      emit (SetValue reverbSend Gain (dec 4 1)) ;;;
      emit (SetType osc1 "sine") ;;;
      emit (SetType osc2 "sine") ;;;
      emit (SetType osc3 "sine") ;;;
      emit (SetValue osc1 Frequency (dec 13081 2)) ;;;
      emit (SetValue osc2 Frequency (dec 16481 2)) ;;;
      emit (SetValue osc3 Frequency (of_Z 196)) ;;;
      emit (SetType filter "lowpass") ;;;
      emit (SetValue filter Frequency (of_Z 1800)) ;;;
      emit (SetValue filter FilterQ (dec 7 1)) ;;;
      emit (SetValue panner Pan (of_Z 0)) ;;;
      emit (SetValue gain Gain (of_Z 0)) ;;;
      emit (SetValue delay DelayTime (dec 6 1)) ;;;
      emit (SetValue delayFeedback Gain (dec 35 2)) ;;;
      connect osc1 (Some filter) ;;;
      connect osc2 (Some filter) ;;;
      connect osc3 (Some filter) ;;;
      connect filter (Some panner) ;;;
      connect panner (Some gain) ;;;
      connect gain None ;;;
      delaySend <- create GainNode ;;
      emit (SetValue delaySend Gain (dec 3 1)) ;;;
      connect gain (Some delaySend) ;;;
      connect delaySend (Some delay) ;;;
      connect delay (Some delayFeedback) ;;;
      connect delayFeedback (Some delay) ;;;
      connect delay None ;;;
      connect gain (Some reverbSend) ;;;
      connect reverbSend (Some reverb) ;;;
      connect reverb None ;;;
      now <- currentTime ;;
      sourceStart osc1 now ;;;
      sourceStart osc2 now ;;;
      sourceStart osc3 now ;;;
      let nodes :=
        {| oscs := [osc1; osc2; osc3]; filter := filter; panner := panner;
           gain := gain; delay := delay; delayFeedback := delayFeedback;
           reverb := reverb; reverbSend := reverbSend |} in
      modify (upd_hook (with_droneRef (Some nodes))) ;;;
      ret nodes
  end.

(** The constants of [scheduleEventVoice]. *)
Definition magClamped (mag : N) : N :=
  Math_max (of_Z 0) (Math_min (of_Z 7) (or_else mag (of_Z 0))).
Definition depthClamped (depthKm : N) : N :=
  Math_max (of_Z 0) (Math_min (of_Z 700) (or_else depthKm (of_Z 0))).
Definition panPos (lat : N) : N :=
  mapRange lat (of_Z (-90)) (of_Z 90) (dec (-9) 1) (dec 9 1).
Definition scaleSemis : list Z := [0; 2; 4; 7; 9]%Z.
Definition idx (mag : N) : N :=
  Math_floor
    (mapRange (magClamped mag) (of_Z 0) (of_Z 7) (of_Z 0)
       (of_Z (Z.of_nat (length scaleSemis)) - dec 1 3)).
(** [scaleSemis[idx]]: [None] is [undefined]. *)
Definition semis (mag : N) : option Z :=
  i ← to_index (idx mag); scaleSemis !! i.
Definition peakGain (mag : N) : N :=
  mapRange (magClamped mag) (of_Z 0) (of_Z 7) (dec 3 2) (dec 18 2).
Definition safeStart (now time : N) : N :=
  Math_max now (time - dec 2 2).
Definition centerFreq (depthKm : N) : N :=
  mapRange (depthClamped depthKm) (of_Z 0) (of_Z 700) (of_Z 9000) (of_Z 600).
Definition noisePeak (mag : N) : N :=
  mapRange (magClamped mag) (of_Z 0) (of_Z 7) (dec 1 2) (dec 6 2).

Definition transientNodes_add (n : node_id) : M unit :=
  modify (upd_hook (fun h =>
    with_transientNodesRef
      (if bool_decide (n ∈ transientNodesRef h) then transientNodesRef h
       else transientNodesRef h ++ [n]) h)).

Definition scheduleEventVoice (drone : DroneNodes)
    (time mag lat depthKm : N) : M unit :=
  voicePan <- create StereoPannerNode ;;
  setValueAtTime voicePan Pan (panPos lat) time ;;;
  let root := of_Z 196 in
  osc <- create OscillatorNode ;;
  emit (SetType osc "sine") ;;;
  setPitchAtTime osc root (semis mag) time ;;;
  voiceGain <- create GainNode ;;
  let attack := dec 8 1 in
  let release := of_Z 5 in
  now <- currentTime ;;
  let safeStart := safeStart now time in
  setValueAtTime voiceGain Gain (of_Z 0) safeStart ;;;
  linearRampToValueAtTime voiceGain Gain (peakGain mag) (time + attack) ;;;
  linearRampToValueAtTime voiceGain Gain (dec 1 4) (time + release) ;;;
  connect osc (Some voiceGain) ;;;
  connect voiceGain (Some voicePan) ;;;
  connect voicePan (Some (gain drone)) ;;;
  sourceStart osc safeStart ;;;
  sourceStop osc (time + release + dec 5 1) ;;;
  transientNodes_add osc ;;;
  noiseSource <- create AudioBufferSourceNode ;;
  nb <- getNoiseBuffer ;;
  emit (SetBuffer noiseSource nb) ;;;
  noiseFilter <- create BiquadFilterNode ;;
  emit (SetType noiseFilter "bandpass") ;;;
  setValueAtTime noiseFilter Frequency (centerFreq depthKm) time ;;;
  setValueAtTime noiseFilter FilterQ (of_Z 3) time ;;;
  noiseGain <- create GainNode ;;
  let nAttack := dec 6 1 in
  let nRelease := dec 35 1 in
  setValueAtTime noiseGain Gain (of_Z 0) safeStart ;;;
  linearRampToValueAtTime noiseGain Gain (noisePeak mag) (time + nAttack) ;;;
  linearRampToValueAtTime noiseGain Gain (dec 1 4) (time + nRelease) ;;;
  connect noiseSource (Some noiseFilter) ;;;
  connect noiseFilter (Some noiseGain) ;;;
  connect noiseGain (Some voicePan) ;;;
  connect voicePan (Some (gain drone)) ;;;
  sourceStart noiseSource safeStart ;;;
  sourceStop noiseSource (time + nRelease + dec 5 1) ;;;
  transientNodes_add noiseSource.

(** The timeline mapping of [start]; [startOffset] is [1.0] in the hook
    with the drone and [0.1] in the earlier one. *)
Definition minTime (quakes : list EarthquakeFeature) : N :=
  Math_min_list (map time quakes).
Definition maxTime (quakes : list EarthquakeFeature) : N :=
  Math_max_list (map time quakes).
Definition spanMs (quakes : list EarthquakeFeature) : N :=
  or_else (maxTime quakes - minTime quakes) (of_Z 1).
Definition timeScale (durationSec : N) (quakes : list EarthquakeFeature)
  : N :=
  spanMs quakes / durationSec.
Definition onsetTime (startOffset now durationSec : N)
    (quakes : list EarthquakeFeature) (feature : EarthquakeFeature) : N :=
  let relMs := time feature - minTime quakes in
  now + startOffset + relMs / timeScale durationSec quakes.

(** [await ctx.resume()]: the promise may reject. *)
Definition resume (resume_ok : bool) : M unit :=
  emit Resume ;;;
  if resume_ok
  then modify (upd_hook (with_audioCtxRef (Some Running)))
  else throw.

Definition setIsPlaying (b : bool) : M unit :=
  modify (upd_hook (with_isPlaying b)).

Definition clearVisualTimeouts : M unit :=
  ids <- get (fun w => visualTimeoutsRef (hook w)) ;;
  for_each ids clearTimeout ;;;
  modify (upd_hook (with_visualTimeoutsRef [])).

(** The closure armed as the end-of-playback timer. *)
Definition endOfPlayback : M unit :=
  ctxNow <- currentTime ;;
  droneNow <- get (fun w => droneRef (hook w)) ;;
  match droneNow with
  | Some d =>
      cancelScheduledValues (gain d) Gain ctxNow ;;;
      v <- get (fun w => gainReading (plat w)) ;;
      setValueAtTime (gain d) Gain v ctxNow ;;;
      linearRampToValueAtTime (gain d) Gain (of_Z 0) (ctxNow + of_Z 5)
  | None => ret tt
  end ;;;
  setIsPlaying false.

Definition start (features : option (list EarthquakeFeature))
    (durationSec : N) (onEvent : bool)
    (fresh : ctx_state) (resume_ok : bool) : M unit :=
  match features with
  | None | Some [] => ret tt
  | Some quakes =>
      ctx <- getAudioContext fresh ;;
      match ctx with
      | None => ret tt
      | Some st =>
          match st with
          | Suspended => resume resume_ok
          | Running => ret tt
          end ;;;
          drone <- ensureDrone ;;
          now <- currentTime ;;
          cancelScheduledValues (gain drone) Gain now ;;;
          setValueAtTime (gain drone) Gain (of_Z 0) now ;;;
          linearRampToValueAtTime (gain drone) Gain BASE_GAIN
            (now + of_Z 5) ;;;
          let startOffset := of_Z 1 in
          clearVisualTimeouts ;;;
          modify (upd_hook (fun h => with_runs (S (runs h)) h)) ;;;
          for_each quakes (fun feature =>
            let t := onsetTime startOffset now durationSec quakes feature in
            scheduleEventVoice drone t (mag feature) (lat feature)
              (depthKm feature) ;;;
            if onEvent then
              ct <- currentTime ;;
              let delayMs := Math_max (of_Z 0) ((t - ct) * of_Z 1000) in
              run <- get (fun w => runs (hook w)) ;;
              timeoutId <- setTimeout (VisualCb run feature) delayMs ;;
              modify (upd_hook (fun h =>
                with_visualTimeoutsRef
                  (visualTimeoutsRef h ++ [timeoutId]) h))
            else ret tt) ;;;
          setIsPlaying true ;;;
          let estimatedEnd := now + startOffset + durationSec + of_Z 10 in
          e <- get (fun w => endTimeoutRef (hook w)) ;;
          match e with
          | Some id => if (id =? 0)%nat then ret tt else clearTimeout id
          | None => ret tt
          end ;;;
          id <- setTimeout EndCb ((estimatedEnd - now) * of_Z 1000) ;;
          modify (upd_hook (with_endTimeoutRef (Some id)))
      end
  end.

Definition stop : M unit :=
  ctx <- get (fun w => audioCtxRef (hook w)) ;;
  drone <- get (fun w => droneRef (hook w)) ;;
  match ctx, drone with
  | Some _, Some d =>
      now <- currentTime ;;
      cancelScheduledValues (gain d) Gain now ;;;
      v <- get (fun w => gainReading (plat w)) ;;
      setValueAtTime (gain d) Gain v now ;;;
      linearRampToValueAtTime (gain d) Gain (of_Z 0) (now + dec 25 1) ;;;
      for_each (oscs d) (fun osc =>
        try_catch (sourceStop osc (now + of_Z 3)))
  | _, _ => ret tt
  end ;;;
  nodes <- get (fun w => transientNodesRef (hook w)) ;;
  for_each nodes (fun node => try_catch (sourceStop node (of_Z 0))) ;;;
  modify (upd_hook (with_transientNodesRef [])) ;;;
  clearVisualTimeouts ;;;
  e <- get (fun w => endTimeoutRef (hook w)) ;;
  match e with
  | Some id =>
      if (id =? 0)%nat then ret tt
      else
        clearTimeout id ;;;
        modify (upd_hook (with_endTimeoutRef None))
  | None => ret tt
  end ;;;
  setIsPlaying false.

(** The cleanup of the unmount effect. *)
Definition unmount : M unit :=
  stop ;;;
  ctx <- get (fun w => audioCtxRef (hook w)) ;;
  match ctx with
  | Some _ =>
      emit Close ;;;
      modify (upd_hook (with_audioCtxRef None))
  | None => ret tt
  end ;;;
  modify (upd_hook (with_droneRef None)) ;;;
  modify (upd_hook (with_noiseBufferRef None)) ;;;
  modify (upd_hook (with_reverbBufferRef None)) ;;;
  clearVisualTimeouts.

(** *** What the platform does on its own *)

(** A pending timer fires: it leaves the queue and its closure runs. *)
Definition fire (id : timer_id) : M unit :=
  ts <- get (fun w => timers (plat w)) ;;
  match ts !! id with
  | Some cb =>
      modify (upd_plat (fun p =>
        with_timers (base.delete id (timers p)) (next_timer p) p)) ;;;
      match cb with
      | VisualCb _ feature => emit (OnEvent feature)
      | EndCb => endOfPlayback
      end
  | None => ret tt
  end.

(** A started source finishes: its "ended" listener, if the hook gave it
    one, removes it from the transient set. *)
Definition ended (n : node_id) : M unit :=
  srcs <- get (fun w => sources (plat w)) ;;
  match srcs !! n with
  | Some s =>
      if src_ended s then ret tt
      else
        modify (upd_plat (with_sources
          (<[n := {| src_start := src_start s; src_stop := src_stop s;
                     src_ended := true |}]> srcs))) ;;;
        modify (upd_hook (fun h =>
          with_transientNodesRef
            (List.filter (fun m => negb (m =? n)%nat) (transientNodesRef h))
            h))
  | None => ret tt
  end.

(** The audio clock advances to [c] and the drone gain now reads [g]. *)
Definition tick (c g : N) : M unit :=
  now <- currentTime ;;
  if valid_time c && isFinite g && negb (c <? now)
  then modify (upd_plat (with_clock c g))
  else ret tt.

Inductive action : Type :=
  | AStart (features : option (list EarthquakeFeature)) (durationSec : N)
      (onEvent : bool) (fresh : ctx_state) (resume_ok : bool)
  | AStop
  | AUnmount
  | AFire (id : timer_id)
  | AEnded (n : node_id)
  | ATick (c g : N).

Definition perform (a : action) : M unit :=
  match a with
  | AStart fs d cb fresh ok => start fs d cb fresh ok
  | AStop => stop
  | AUnmount => unmount
  | AFire id => fire id
  | AEnded n => ended n
  | ATick c g => tick c g
  end.

Definition step (w : World) (a : action) : World := snd (perform a w).

Definition run (w : World) (acts : list action) : World :=
  foldl step w acts.

(** The hook as mounted: nothing created yet. *)
Definition init (supported : bool) : World :=
  {| hook := {| audioCtxRef := None; droneRef := None;
                endTimeoutRef := None; transientNodesRef := [];
                noiseBufferRef := None; reverbBufferRef := None;
                visualTimeoutsRef := []; isPlaying := false; runs := 0%nat |};
     plat := {| hasAudioContext := supported; clock := of_Z 0;
                gainReading := of_Z 0; sources := ∅; automation := ∅;
                timers := ∅; next_timer := 1%nat; next_node := 0%nat;
                trace := [] |} |}.

Definition reachable (w : World) : Prop :=
  exists supported acts, w = run (init supported) acts.

(** The lifecycle state of the specification. *)
Inductive lifecycle : Type := Unsupported | Ready | Playing.

Definition lifecycle_of (w : World) : lifecycle :=
  if negb (hasAudioContext (plat w)) then Unsupported
  else if isPlaying (hook w) then Playing else Ready.
End Engine.

Arguments Ret {A} a.
Arguments Throw {A}.
Arguments World N : clear implicits.
Arguments M N A : clear implicits.

(** * Properties *)

Local Open Scope js_scope.

(** ** Exact arithmetic *)

Section ExactFacts.
Local Open Scope Q_scope.

Lemma lt_fin (p q : Q) :
  (XFin p <? XFin q)%js = true <-> p < q.
Proof.
  cbn. destruct (Qlt_le_dec p q) as [Hlt | Hle]; split; intros; try easy.
  exfalso. apply (Qle_not_lt _ _ Hle). assumption.
Qed.

Lemma lt_fin_false (p q : Q) :
  (XFin p <? XFin q)%js = false <-> q <= p.
Proof.
  cbn. destruct (Qlt_le_dec p q) as [Hlt | Hle]; split; intros; try easy.
  exfalso. apply (Qle_not_lt _ _ H). assumption.
Qed.


Lemma eq_fin_false (p q : Q) :
  (XFin p === XFin q)%js = false <-> ~ p == q.
Proof.
  cbn. split.
  - intros Hf Heq. apply Qeq_bool_iff in Heq. congruence.
  - intros Hne. destruct (Qeq_bool p q) eqn:E; [|reflexivity].
    apply Qeq_bool_iff in E. contradiction.
Qed.

Lemma is_zero_true (q : Q) : Exact.is_zero q = true <-> q == 0.
Proof. apply Qeq_bool_iff. Qed.

Lemma is_zero_false (q : Q) : Exact.is_zero q = false <-> ~ q == 0.
Proof. apply (eq_fin_false q 0). Qed.
End ExactFacts.

(** Case analysis on every comparison of rationals in the goal. *)
Ltac q_cases :=
  repeat match goal with
  | |- context [Qlt_le_dec ?p ?q] => destruct (Qlt_le_dec p q)
  | |- context [Qeq_bool ?p ?q] =>
      let E := fresh "E" in
      destruct (Qeq_bool p q) eqn:E;
      [apply Qeq_bool_iff in E | apply (eq_fin_false p q) in E]
  | |- context [Exact.is_zero ?p] =>
      let E := fresh "E" in
      destruct (Exact.is_zero p) eqn:E;
      [apply is_zero_true in E | apply is_zero_false in E]
  end.

Ltac x_unfold :=
  cbn [js_add js_sub js_mul js_div js_neg js_lt js_eq isNaN Math_min Math_max
       Math_floor to_index of_Z NaN Infinity xnum_number
       Exact.add Exact.sub Exact.neg Exact.mul Exact.div Exact.lt Exact.seq
       Exact.min Exact.max Exact.isNaN Exact.floor orb andb negb].

Tactic Notation "x_unfold" "in" hyp(H) :=
  cbn [js_add js_sub js_mul js_div js_neg js_lt js_eq isNaN Math_min Math_max
       Math_floor to_index of_Z NaN Infinity xnum_number
       Exact.add Exact.sub Exact.neg Exact.mul Exact.div Exact.lt Exact.seq
       Exact.min Exact.max Exact.isNaN Exact.floor orb andb negb] in H.

Section MapRange.
Local Open Scope Q_scope.

(** The clamp of the code, on finite bounds in order. *)
Lemma clamp_fin (v : xnum) (a b : Q) :
  a <= b -> isNaN v = false ->
  exists x, Math_min (XFin b) (Math_max (XFin a) v) = XFin x
            /\ a <= x <= b
            /\ (clamp_ref (XFin a) (XFin b) v === XFin x)%js = true.
Proof.
  intros Hab Hv. unfold clamp_ref.
  destruct v as [|[|]|q]; try discriminate; x_unfold; q_cases; x_unfold;
    q_cases;
    first [exists a; repeat split; try lra; apply Qeq_bool_iff; lra
          |exists b; repeat split; try lra; apply Qeq_bool_iff; lra
          |exists q; repeat split; try lra; apply Qeq_bool_iff; lra].
Qed.

(** What [mapRange] returns on a value that is not NaN, for finite bounds
    in order: the interpolation at the clamped value. *)
Lemma mapRange_fin (v : xnum) (a b c d : Q) :
  a <= b -> isNaN v = false ->
  exists x r,
    a <= x <= b
    /\ (clamp_ref (XFin a) (XFin b) v === XFin x)%js = true
    /\ mapRange v (XFin a) (XFin b) (XFin c) (XFin d) = XFin r
    /\ (if Qeq_bool a b then r == c
        else r == c + (x - a) / (b - a) * (d - c)).
Proof.
  intros Hab Hv.
  destruct (clamp_fin v a b Hab Hv) as (x & Hx & Hin & Href).
  unfold mapRange. rewrite Hv, Hx. x_unfold.
  destruct (Qeq_bool b a) eqn:Eba.
  - apply Qeq_bool_iff in Eba. x_unfold.
    exists x. eexists. repeat split; try apply Hin; try exact Href.
    destruct (Qeq_bool a b) eqn:Eab.
    + unfold inject_Z. lra.
    + apply (eq_fin_false a b) in Eab. lra.
  - apply (eq_fin_false b a) in Eba.
    assert (Exact.is_zero (b + - a) = false) as Hz
      by (apply is_zero_false; lra).
    rewrite Hz. x_unfold.
    exists x. eexists. repeat split; try apply Hin; try exact Href.
    destruct (Qeq_bool a b) eqn:Eab.
    + apply Qeq_bool_iff in Eab. lra.
    + unfold Qminus. reflexivity.
Qed.

Lemma lerp_between (c d t : Q) :
  0 <= t <= 1 -> Qmin c d <= c + t * (d - c) <= Qmax c d.
Proof.
  intros [H0 H1].
  destruct (Qlt_le_dec c d) as [Hcd | Hdc].
  - rewrite Q.min_l, Q.max_r by lra. nra.
  - rewrite Q.min_r, Q.max_l by lra. nra.
Qed.

Lemma ratio_between (a b x : Q) :
  a < b -> a <= x <= b -> 0 <= (x - a) / (b - a) <= 1.
Proof.
  intros Hab [Hax Hxb]. split.
  - apply Qle_shift_div_l; lra.
  - apply Qle_shift_div_r; lra.
Qed.

(** The value of [mapRange] lies between the output bounds. *)
Lemma mapRange_between (v : xnum) (a b c d : Q) :
  a <= b ->
  exists r, mapRange v (XFin a) (XFin b) (XFin c) (XFin d) = XFin r
            /\ Qmin c d <= r <= Qmax c d.
Proof.
  intros Hab. destruct (isNaN v) eqn:Hv.
  - exists c. split.
    + unfold mapRange. rewrite Hv. reflexivity.
    + destruct (Qlt_le_dec c d).
      * rewrite Q.min_l, Q.max_r by lra. lra.
      * rewrite Q.min_r, Q.max_l by lra. lra.
  - destruct (mapRange_fin v a b c d Hab Hv) as (x & r & Hin & _ & Hr & Hval).
    exists r. split; [exact Hr|].
    destruct (Qeq_bool a b) eqn:Eab.
    + rewrite Hval. destruct (Qlt_le_dec c d).
      * rewrite Q.min_l, Q.max_r by lra. lra.
      * rewrite Q.min_r, Q.max_l by lra. lra.
    + apply (eq_fin_false a b) in Eab. rewrite Hval.
      apply lerp_between. apply ratio_between; lra.
Qed.
End MapRange.

(** ** [mapRange] *)

Section MapRangeSpec.
Local Open Scope Q_scope.



End MapRangeSpec.


(** ** Magnitude to pitch and gain *)

Section Magnitude.
Local Open Scope Q_scope.

(** Whatever the magnitude, also NaN or infinite, the clamped magnitude
    is a rational in [[0, 7]]. *)
Lemma magClamped_range (mag : xnum) :
  exists m, magClamped mag = XFin m /\ 0 <= m <= 7.
Proof.
  unfold magClamped, or_else, truthy.
  destruct mag as [|[|]|q]; repeat (progress (x_unfold; q_cases));
    unfold inject_Z in *;
    first [exists 0; split; [reflexivity | lra]
          |exists 7; split; [reflexivity | lra]
          |exists q; split; [reflexivity | lra]].
Qed.

Lemma depthClamped_range (depthKm : xnum) :
  exists m, depthClamped depthKm = XFin m /\ 0 <= m <= 700.
Proof.
  unfold depthClamped, or_else, truthy.
  destruct depthKm as [|[|]|q]; repeat (progress (x_unfold; q_cases));
    unfold inject_Z in *;
    first [exists 0; split; [reflexivity | lra]
          |exists 700; split; [reflexivity | lra]
          |exists q; split; [reflexivity | lra]].
Qed.

(** The interpolated index, floored, is one of the integers 0..4. *)
Lemma idx_floor_range (mag : xnum) :
  exists i : nat, idx mag = XFin (inject_Z (Z.of_nat i)) /\ (i < 5)%nat.
Proof.
  destruct (magClamped_range mag) as (m & Hm & Hm07).
  unfold idx. rewrite Hm.
  remember (of_Z (Z.of_nat (length scaleSemis)) - dec 1 3)%js as hi eqn:Hhi.
  vm_compute in Hhi. subst hi.
  destruct (mapRange_between (XFin m) (inject_Z 0) (inject_Z 7)
              (inject_Z 0) (4999 # 1000) ltac:(unfold inject_Z; lra))
    as (r & Hr & Hlo & Hhi).
  match goal with
  | |- context [mapRange ?v ?a ?b ?c ?d] =>
      change (mapRange v a b c d)
        with (mapRange (XFin m) (XFin (inject_Z 0)) (XFin (inject_Z 7))
                (XFin (inject_Z 0)) (XFin (4999 # 1000)))
  end.
  rewrite Hr. x_unfold.
  assert (0 <= Qfloor r <= 4)%Z as Hfl.
  { split.
    - change 0%Z with (Qfloor 0). apply Qfloor_resp_le.
      rewrite Q.min_l in Hlo by (unfold inject_Z; lra).
      unfold inject_Z in Hlo. lra.
    - change 4%Z with (Qfloor (4999 # 1000)). apply Qfloor_resp_le.
      rewrite Q.max_r in Hhi by (unfold inject_Z; lra). exact Hhi. }
  exists (Z.to_nat (Qfloor r)). rewrite Z2Nat.id by lia.
  split; [reflexivity | lia].
Qed.

(** An integer in the range of array indices converts to that index. *)
Lemma to_index_nat (i : nat) :
  (i < 5)%nat -> to_index (XFin (inject_Z (Z.of_nat i))) = Some i.
Proof.
  intros Hi. x_unfold. unfold Exact.to_index. rewrite Qfloor_Z.
  rewrite (proj2 (Qeq_bool_iff _ _) (Qeq_refl _)).
  destruct (Z.leb_spec 0 (Z.of_nat i)); [|lia].
  destruct (Z.ltb_spec (Z.of_nat i) (2 ^ 32 - 1)); [|lia].
  rewrite Nat2Z.id. reflexivity.
Qed.

(** C9: for every magnitude (NaN, negative, above 7, infinite included) the
    scale index [Math.floor(mapRange(magClamped, 0, 7, 0, 4.999))] is one
    of the integers 0..4, so [scaleSemis[idx]] is an entry of the
    5-element table and the pitch of the voice is defined. *)
Theorem idx_in_table (mag : xnum) :
  exists (i : nat) (s : Z),
    idx mag = XFin (inject_Z (Z.of_nat i))
    /\ to_index (idx mag) = Some i
    /\ (i < 5)%nat
    /\ scaleSemis !! i = Some s
    /\ semis mag = Some s.
Proof.
  destruct (idx_floor_range mag) as (i & Hi & Hlt).
  pose proof (to_index_nat i Hlt) as Hto.
  assert (exists s, scaleSemis !! i = Some s) as (s & Hs).
  { apply lookup_lt_is_Some_2. exact Hlt. }
  exists i, s. unfold semis. rewrite Hi, Hto. cbn [mbind option_bind].
  split_and!; try reflexivity; assumption.
Qed.

End Magnitude.

(** ** The timeline mapping *)

Section Timeline.
Local Open Scope Q_scope.

Ltac timeline_unfold :=
  unfold onsetTime, timeScale, spanMs, maxTime, minTime, Math_max_list,
    Math_min_list, or_else, truthy;
  cbn [map foldr].

(** C1, as amended: in exact arithmetic, for two events with finite
    timestamps [T0 < T1], in either input order, and a finite duration
    [D], the onset of the later event minus the onset of the earlier one
    is [D]; [startOffset] is [1.0] in the hook with the drone and [0.1] in
    the earlier hook. *)
Theorem onset_span (startOffset now D T0 T1 : Q)
    (e0 e1 : EarthquakeFeature) (quakes : list EarthquakeFeature)
    (H0 : time e0 = XFin T0) (H1 : time e1 = XFin T1) (Hlt : T0 < T1)
    (Hq : quakes = [e0; e1] \/ quakes = [e1; e0]) :
  (onsetTime (XFin startOffset) (XFin now) (XFin D) quakes e1
   - onsetTime (XFin startOffset) (XFin now) (XFin D) quakes e0
   === XFin D)%js = true.
Proof.
  assert (minTime quakes = XFin T0 /\ maxTime quakes = XFin T1)
    as [Hmin Hmax].
  { destruct Hq as [-> | ->];
      unfold maxTime, minTime, Math_max_list, Math_min_list;
      cbn [map foldr]; rewrite H0, H1;
      repeat (progress (x_unfold; q_cases)); split; try reflexivity; lra. }
  unfold onsetTime, timeScale, spanMs, or_else, truthy.
  rewrite Hmin, Hmax, H0, H1. x_unfold.
  assert (Qeq_bool (T1 + - T0) (inject_Z 0) = false) as Hspan
    by (apply (eq_fin_false (T1 + - T0) (inject_Z 0));
        unfold inject_Z; lra).
  rewrite Hspan. x_unfold.
  destruct (Exact.is_zero D) eqn:HD.
  - apply is_zero_true in HD.
    assert (Exact.is_zero (T1 + - T0) = false) as Hz
      by (apply is_zero_false; lra).
    rewrite Hz. x_unfold. apply Qeq_bool_iff. lra.
  - apply is_zero_false in HD.
    assert (Exact.is_zero ((T1 + - T0) / D) = false) as Hz.
    { apply is_zero_false. intros Hq0.
      assert (T1 + - T0 == (T1 + - T0) / D * D) as Hmul
        by (field; assumption).
      rewrite Hq0 in Hmul. lra. }
    rewrite Hz. x_unfold. apply Qeq_bool_iff. field. split; lra.
Qed.

(** Two events one second apart. *)
Definition quake_at {N} `{JsNumber N} (t : Z) : EarthquakeFeature :=
  {| mag := of_Z 3; time := of_Z t; place := "";
     lon := of_Z 0; lat := of_Z 10; depthKm := of_Z 30 |}.

Lemma onset_span_witness :
  0 < 1000
  /\ (onsetTime (XFin 1) (XFin 0) (XFin 60)
        [quake_at 0; quake_at 1000] (quake_at 1000)
      - onsetTime (XFin 1) (XFin 0) (XFin 60)
          [quake_at 0; quake_at 1000] (quake_at 0)
      === XFin 60)%js = true.
Proof.
  split; [lra|].
  apply (onset_span 1 0 60 0 1000 (quake_at 0) (quake_at 1000));
    [reflexivity | reflexivity | lra | left; reflexivity].
Defined.

(** C2: for a collection of one event with a finite timestamp, whatever
    it is, and a finite duration, the onset is [now + startOffset]: the
    span is 0, replaced by 1, and [relMs] is 0. *)
Theorem onset_single (startOffset now D T : Q)
    (m lo la dp : xnum) (pl : string) :
  let e := {| mag := m; time := XFin T; place := pl;
              lon := lo; lat := la; depthKm := dp |} in
  (onsetTime (XFin startOffset) (XFin now) (XFin D) [e] e
   === XFin now + XFin startOffset)%js = true
  /\ (spanMs [e] === of_Z 1)%js = true.
Proof.
  intros e. subst e.
  unfold onsetTime, timeScale, spanMs, maxTime, minTime, Math_max_list,
    Math_min_list, or_else, truthy.
  cbn [map foldr time]. x_unfold.
  assert (Qeq_bool (T + - T) (inject_Z 0) = true) as Hspan
    by (apply Qeq_bool_iff; unfold inject_Z; lra).
  rewrite Hspan. x_unfold. split; [|reflexivity].
  destruct (Exact.is_zero D) eqn:HD.
  - assert (Exact.is_zero (inject_Z 1) = false) as Hz by reflexivity.
    rewrite Hz. x_unfold. apply Qeq_bool_iff. lra.
  - apply is_zero_false in HD.
    assert (Exact.is_zero (inject_Z 1 / D) = false) as Hz.
    { apply is_zero_false. intros Hq0.
      assert (inject_Z 1 == inject_Z 1 / D * D) as Hmul
        by (field; assumption).
      rewrite Hq0 in Hmul. unfold inject_Z in Hmul. lra. }
    rewrite Hz. x_unfold. apply Qeq_bool_iff. unfold inject_Z. field.
    assumption.
Qed.
End Timeline.

(** C1 as stated fails in the arithmetic the code runs in: with
    [durationSec = 60], the clock at 0 and two events 1000 ms apart,
    [1000 / (1000 / 60)] rounds to the binary64 number just below 60
    (59.99999999999999289...), and so does the difference of the two
    onsets. *)
Lemma onset_span_binary64 :
  let quakes := [quake_at (N:=binary64) 0; quake_at 1000] in
  let t0 := onsetTime (of_Z 1) (of_Z 0) (of_Z 60) quakes (quake_at 0) in
  let t1 := onsetTime (of_Z 1) (of_Z 0) (of_Z 60) quakes (quake_at 1000) in
  (time (quake_at (N:=binary64) 0) <? time (quake_at (N:=binary64) 1000))
    = true
  /\ (t1 - t0 === of_Z 60) = false
  /\ (t1 - t0 <? of_Z 60) = true
  /\ t1 - t0 = S754_finite false 8444249301319679 (-47)
  /\ of_Z 60 = S754_finite false 8444249301319680 (-47).
Proof. repeat split; vm_compute; reflexivity. Qed.

(** The single-event onset in binary64, on a sample: the clock at 0.25,
    an event at epoch 1764446400000 ms, 60 s. *)
Example onset_single_binary64 :
  let e := quake_at (N:=binary64) 1764446400000 in
  (onsetTime (of_Z 1) (dec 25 2) (of_Z 60) [e] e === dec 25 2 + of_Z 1)
  = true.
Proof. vm_compute. reflexivity. Qed.

(** ** Reasoning about computations *)

Section Hoare.
Context {N : Type} `{JsNumber N}.

(** [hoare P m Q E]: from a world in [P], [m] either returns [a] in a
    world in [Q a] or throws in a world in [E]. *)
Definition hoare {A} (P : World N -> Prop) (m : M N A)
    (Q : A -> World N -> Prop) (E : World N -> Prop) : Prop :=
  forall w, P w ->
    match m w with
    | (Ret a, w') => Q a w'
    | (Throw, w') => E w'
    end.

Lemma hoare_conseq {A} (P P' : World N -> Prop) (m : M N A)
    (Q Q' : A -> World N -> Prop) (E E' : World N -> Prop) :
  hoare P' m Q' E' ->
  (forall w, P w -> P' w) ->
  (forall a w, Q' a w -> Q a w) ->
  (forall w, E' w -> E w) ->
  hoare P m Q E.
Proof.
  intros Hm HP HQ HE w Hw. specialize (Hm w (HP w Hw)).
  destruct (m w) as [[a|] w']; auto.
Qed.

Lemma hoare_bind {A B} (P : World N -> Prop) (m : M N A) (k : A -> M N B)
    (R : A -> World N -> Prop) (Q : B -> World N -> Prop) (E : World N -> Prop) :
  hoare P m R E ->
  (forall a, hoare (R a) (k a) Q E) ->
  hoare P (bind m k) Q E.
Proof.
  intros Hm Hk w Hw. unfold bind. specialize (Hm w Hw).
  destruct (m w) as [[a|] w']; [apply (Hk a w' Hm) | exact Hm].
Qed.

Lemma hoare_ret {A} (a : A) (Q : A -> World N -> Prop) (E : World N -> Prop) :
  hoare (Q a) (ret a) Q E.
Proof. intros w Hw. exact Hw. Qed.

Lemma hoare_throw {A} (Q : A -> World N -> Prop) (E : World N -> Prop) :
  hoare E (throw (A:=A)) Q E.
Proof. intros w Hw. exact Hw. Qed.

Lemma hoare_get {A} (f : World N -> A) (Q : A -> World N -> Prop)
    (E : World N -> Prop) :
  hoare (fun w => Q (f w) w) (get f) Q E.
Proof. intros w Hw. exact Hw. Qed.

Lemma hoare_modify (f : World N -> World N) (Q : unit -> World N -> Prop)
    (E : World N -> Prop) :
  hoare (fun w => Q tt (f w)) (modify f) Q E.
Proof. intros w Hw. exact Hw. Qed.

Lemma hoare_try_catch (P : World N -> Prop) (m : M N unit)
    (Q : unit -> World N -> Prop) (E : World N -> Prop) :
  hoare P m Q (Q tt) -> hoare P (try_catch m) Q E.
Proof.
  intros Hm w Hw. unfold try_catch. specialize (Hm w Hw).
  destruct (m w) as [[[]|] w']; exact Hm.
Qed.

Lemma hoare_for_each {A} (I : World N -> Prop) (xs : list A)
    (body : A -> M N unit) (E : World N -> Prop) :
  (forall x, x ∈ xs -> hoare I (body x) (fun _ => I) E) ->
  hoare I (for_each xs body) (fun _ => I) E.
Proof.
  induction xs as [|x xs IH]; intros Hbody.
  - intros w Hw. exact Hw.
  - cbn [for_each]. apply hoare_bind with (R := fun _ => I).
    + apply Hbody. left.
    + intros _. apply IH. intros y Hy. apply Hbody. right. exact Hy.
Qed.

Lemma hoare_and {A} (P1 P2 : World N -> Prop) (m : M N A)
    (Q1 Q2 : A -> World N -> Prop) (E1 E2 : World N -> Prop) :
  hoare P1 m Q1 E1 -> hoare P2 m Q2 E2 ->
  hoare (fun w => P1 w /\ P2 w) m (fun a w => Q1 a w /\ Q2 a w)
    (fun w => E1 w /\ E2 w).
Proof.
  intros H1 H2 w [Hw1 Hw2]. specialize (H1 w Hw1). specialize (H2 w Hw2).
  destruct (m w) as [[a|] w']; split; assumption.
Qed.

(** [keeps view m]: [m] leaves the part [view] of the world as it is,
    whether it returns or throws. *)
Definition keeps {V A} (view : World N -> V) (m : M N A) : Prop :=
  forall w, view (snd (m w)) = view w.

Lemma keeps_bind {V A B} (view : World N -> V) (m : M N A) (k : A -> M N B) :
  keeps view m -> (forall a, keeps view (k a)) -> keeps view (bind m k).
Proof.
  intros Hm Hk w. unfold bind. specialize (Hm w).
  destruct (m w) as [[a|] w']; cbn in *; [|exact Hm].
  rewrite <- Hm. apply Hk.
Qed.

Lemma keeps_ret {V A} (view : World N -> V) (a : A) : keeps view (ret a).
Proof. intros w. reflexivity. Qed.

Lemma keeps_throw {V A} (view : World N -> V) : keeps view (throw (A:=A)).
Proof. intros w. reflexivity. Qed.

Lemma keeps_get {V A} (view : World N -> V) (f : World N -> A) :
  keeps view (get f).
Proof. intros w. reflexivity. Qed.

Lemma keeps_modify {V} (view : World N -> V) (f : World N -> World N) :
  (forall w, view (f w) = view w) -> keeps view (modify f).
Proof. intros Hf w. apply Hf. Qed.

Lemma keeps_try_catch {V} (view : World N -> V) (m : M N unit) :
  keeps view m -> keeps view (try_catch m).
Proof. intros Hm w. apply Hm. Qed.

Lemma keeps_for_each {V A} (view : World N -> V) (xs : list A)
    (body : A -> M N unit) :
  (forall x, keeps view (body x)) -> keeps view (for_each xs body).
Proof.
  intros Hbody. induction xs as [|x xs IH]; cbn [for_each].
  - apply keeps_ret.
  - apply keeps_bind; [apply Hbody | intros _; exact IH].
Qed.

Lemma keeps_hoare {V A} (view : World N -> V) (m : M N A) (J : V -> Prop) :
  keeps view m ->
  hoare (fun w => J (view w)) m (fun _ w => J (view w))
    (fun w => J (view w)).
Proof.
  intros Hm w Hw. specialize (Hm w).
  destruct (m w) as [[a|] w']; cbn in Hm; rewrite Hm; exact Hw.
Qed.
End Hoare.

(** Decompose a [keeps] goal along the structure of the computation; what
    is left are the field updates, which compute. *)
Ltac keeps_step :=
  match goal with
  | |- keeps _ (bind _ _) => apply keeps_bind; [|intros ?]
  | |- keeps _ (for_each _ _) => apply keeps_for_each; intros ?
  | |- keeps _ (try_catch _) => apply keeps_try_catch
  | |- keeps _ (ret _) => apply keeps_ret
  | |- keeps _ throw => apply keeps_throw
  | |- keeps _ (get _) => apply keeps_get
  | |- keeps _ (modify _) => apply keeps_modify; intros ?; reflexivity
  | |- keeps _ (if ?b then _ else _) => destruct b
  | |- keeps _ (match ?x with _ => _ end) => destruct x
  | |- keeps _ ?m =>
      let h := head_of m in
      unfold h
  end
with head_of m :=
  match m with
  | ?f _ => head_of f
  | _ => m
  end.

(** ** Timers: what is pending is what the hook tracks *)

Section TimerInvariant.
Context {N : Type} `{JsNumber N}.

Definition pending (w : World N) (id : timer_id) (cb : callback) : Prop :=
  timers (plat w) !! id = Some cb.

Definition timers_inv (w : World N) : Prop :=
  (forall id r f, pending w id (VisualCb r f) ->
     id ∈ visualTimeoutsRef (hook w) /\ r = runs (hook w))
  /\ (forall id, pending w id EndCb -> endTimeoutRef (hook w) = Some id)
  /\ (forall id cb, pending w id cb -> (1 <= id < next_timer (plat w))%nat)
  /\ (1 <= next_timer (plat w))%nat
  /\ (forall id, endTimeoutRef (hook w) = Some id -> (1 <= id)%nat).

Definition tview (w : World N) :=
  (timers (plat w), next_timer (plat w), visualTimeoutsRef (hook w),
   endTimeoutRef (hook w), runs (hook w), hasAudioContext (plat w)).

Lemma hoare_keeps {V A} (view : World N -> V) (J : World N -> Prop)
    (m : M N A) (E : World N -> Prop) :
  (forall w w', view w' = view w -> J w -> J w') ->
  (forall w, J w -> E w) ->
  keeps view m -> hoare J m (fun _ => J) E.
Proof.
  intros HJ HE Hm w Hw. specialize (Hm w).
  destruct (m w) as [[a|] w']; cbn in Hm; [|apply HE]; eapply HJ; eauto.
Qed.

Lemma timers_inv_view (w w' : World N) :
  tview w' = tview w -> timers_inv w -> timers_inv w'.
Proof.
  unfold tview, timers_inv, pending. intros Hv.
  injection Hv as -> -> -> -> -> _. trivial.
Qed.


Lemma clearTimeouts_spec (ids : list timer_id) (w : World N) :
  exists w',
    for_each ids clearTimeout w = (Ret tt, w')
    /\ hook w' = hook w
    /\ next_timer (plat w') = next_timer (plat w)
    /\ hasAudioContext (plat w') = hasAudioContext (plat w)
    /\ (forall id, timers (plat w') !! id
                   = if bool_decide (id ∈ ids) then None
                     else timers (plat w) !! id).
Proof.
  revert w. induction ids as [|i ids IH]; intros w.
  - exists w. repeat split.
  - cbn [for_each]. unfold bind at 1.
    change (clearTimeout i w) with
      (Ret tt,
       upd_plat (fun p => with_trace (trace p ++ [ClearTimeout i]) p)
         (upd_plat (fun p =>
            with_timers (base.delete i (timers p)) (next_timer p) p) w)).
    cbv beta iota.
    destruct (IH (upd_plat (fun p => with_trace (trace p ++ [ClearTimeout i]) p)
         (upd_plat (fun p =>
            with_timers (base.delete i (timers p)) (next_timer p) p) w)))
      as (w' & Heq & Hh & Hn & Hs & Ht).
    exists w'. rewrite Heq. repeat split; try assumption.
    intros id. rewrite Ht. cbn.
    destruct (decide (id = i)) as [-> | Hne].
    + rewrite lookup_delete_eq.
      rewrite (bool_decide_eq_true_2 (i ∈ i :: ids)) by left.
      destruct (bool_decide (i ∈ ids)); reflexivity.
    + rewrite lookup_delete_ne by congruence.
      destruct (bool_decide (id ∈ ids)) eqn:E.
      * apply bool_decide_eq_true_1 in E.
        rewrite (bool_decide_eq_true_2 (id ∈ i :: ids)) by (right; exact E).
        reflexivity.
      * apply bool_decide_eq_false_1 in E.
        rewrite (bool_decide_eq_false_2 (id ∈ i :: ids)); [reflexivity|].
        intros Hin. apply elem_of_cons in Hin. tauto.
Qed.

Definition no_visual (w : World N) : Prop :=
  forall id r f, ~ pending w id (VisualCb r f).
Definition no_end (w : World N) : Prop :=
  forall id, ~ pending w id EndCb.
Definition fresh_from (n0 : timer_id) (w : World N) : Prop :=
  forall id cb, pending w id cb -> (n0 <= id)%nat.

Lemma hoare_of_eq {A} (P : World N -> Prop) (m : M N A)
    (Q : A -> World N -> Prop) (E : World N -> Prop) :
  (forall w, P w -> exists a w', m w = (Ret a, w') /\ Q a w') ->
  hoare P m Q E.
Proof.
  intros Hm w Hw. destruct (Hm w Hw) as (a & w' & -> & HQ). exact HQ.
Qed.

Lemma clearVisualTimeouts_spec (w : World N) :
  timers_inv w ->
  exists w',
    clearVisualTimeouts w = (Ret tt, w')
    /\ timers_inv w' /\ no_visual w'
    /\ hook w' = with_visualTimeoutsRef [] (hook w)
    /\ next_timer (plat w') = next_timer (plat w)
    /\ hasAudioContext (plat w') = hasAudioContext (plat w)
    /\ (forall id cb, pending w' id cb -> pending w id cb).
Proof.
  intros (HV & HE & HR & H1 & H5).
  destruct (clearTimeouts_spec (visualTimeoutsRef (hook w)) w)
    as (w1 & Heq & Hh & Hn & Hs & Ht).
  exists (upd_hook (with_visualTimeoutsRef []) w1).
  assert (forall id cb,
            pending (upd_hook (with_visualTimeoutsRef []) w1) id cb ->
            pending w id cb /\ id ∉ visualTimeoutsRef (hook w)) as Hmono.
  { intros id cb. unfold pending. cbn. rewrite Ht.
    destruct (bool_decide (id ∈ visualTimeoutsRef (hook w))) eqn:E;
      [discriminate|].
    apply bool_decide_eq_false_1 in E. auto. }
  split.
  { unfold clearVisualTimeouts, bind, get. rewrite Heq. reflexivity. }
  assert (no_visual (upd_hook (with_visualTimeoutsRef []) w1)) as Hnv.
  { intros id r f Hp. apply Hmono in Hp as [Hp Hnin].
    apply HV in Hp as [Hin _]. contradiction. }
  split; [|split_and!; cbn; try congruence; try exact Hnv].
  - unfold timers_inv. cbn. rewrite Hh, Hn. split_and!.
    + intros id r f Hp. exfalso. exact (Hnv id r f Hp).
    + intros id Hp. apply Hmono in Hp as [Hp _]. auto.
    + intros id cb Hp. apply Hmono in Hp as [Hp _]. apply (HR id cb Hp).
    + exact H1.
    + exact H5.
  - intros id cb Hp. apply Hmono in Hp as [Hp _]. exact Hp.
Qed.

(** While [start] arms its timers: every pending visual timer is one of
    its own. *)
Definition arming (n0 : timer_id) (w : World N) : Prop :=
  timers_inv w /\ (n0 <= next_timer (plat w))%nat
  /\ (forall id r f, pending w id (VisualCb r f) -> (n0 <= id)%nat).

Lemma arming_view n0 (w w' : World N) :
  tview w' = tview w -> arming n0 w -> arming n0 w'.
Proof.
  intros Hv (HI & Hn & Hf). split; [eapply timers_inv_view; eauto|].
  unfold tview, pending in *. injection Hv as -> -> _ _ _ _. auto.
Qed.

Lemma arm_visual_spec n0 (feature : EarthquakeFeature) (delayMs : N) :
  hoare (arming n0)
    (bind (get (fun w => runs (hook w))) (fun run =>
     bind (setTimeout (VisualCb run feature) delayMs) (fun timeoutId =>
     modify (upd_hook (fun h =>
       with_visualTimeoutsRef (visualTimeoutsRef h ++ [timeoutId]) h)))))
    (fun _ => arming n0) timers_inv.
Proof.
  intros w ((HV & HE & HR & H1 & H5) & Hn & Hf). cbn.
  unfold arming, timers_inv, pending. cbn.
  split_and!.
  - intros id r f Hp.
    destruct (decide (id = next_timer (plat w))) as [-> | Hne].
    + rewrite lookup_insert_eq in Hp. injection Hp as <- <-.
      split; [|reflexivity]. apply elem_of_app. right. left.
    + rewrite lookup_insert_ne in Hp by congruence.
      apply HV in Hp as [Hin Hr]. split; [|exact Hr].
      apply elem_of_app. left. exact Hin.
  - intros id Hp.
    destruct (decide (id = next_timer (plat w))) as [-> | Hne].
    + rewrite lookup_insert_eq in Hp. discriminate.
    + rewrite lookup_insert_ne in Hp by congruence. auto.
  - intros id cb Hp.
    destruct (decide (id = next_timer (plat w))) as [-> | Hne].
    + lia.
    + rewrite lookup_insert_ne in Hp by congruence.
      apply HR in Hp. lia.
  - lia.
  - exact H5.
  - lia.
  - intros id r f Hp.
    destruct (decide (id = next_timer (plat w))) as [-> | Hne]; [lia|].
    rewrite lookup_insert_ne in Hp by congruence. eauto.
Qed.


(** Arming the end-of-playback timer once no earlier one is pending. *)
Lemma arm_end_final n0 (w w1 : World N) :
  arming n0 w ->
  hook w1 = hook w ->
  next_timer (plat w1) = next_timer (plat w) ->
  (forall id cb, pending w1 id cb -> pending w id cb /\ cb <> EndCb) ->
  let w2 :=
    upd_hook (with_endTimeoutRef (Some (next_timer (plat w1))))
      (upd_plat (fun p =>
         with_timers (<[next_timer (plat w1) := EndCb]> (timers p))
           (S (next_timer (plat w1))) p) w1) in
  timers_inv w2 /\ fresh_from n0 w2.
Proof.
  intros ((HV & HE & HR & H1 & H5) & Hn & Hf) Hh Hnx Hsub w2. subst w2.
  unfold timers_inv, fresh_from, pending. cbn. rewrite Hnx, Hh.
  split_and!.
  - intros id r f Hp.
    destruct (decide (id = next_timer (plat w))) as [-> | Hne].
    + rewrite lookup_insert_eq in Hp. discriminate.
    + rewrite lookup_insert_ne in Hp by congruence.
      apply Hsub in Hp as [Hp _]. exact (HV _ _ _ Hp).
  - intros id Hp.
    destruct (decide (id = next_timer (plat w))) as [-> | Hne];
      [reflexivity|].
    rewrite lookup_insert_ne in Hp by congruence.
    apply Hsub in Hp as [_ Hp]. congruence.
  - intros id cb Hp.
    destruct (decide (id = next_timer (plat w))) as [-> | Hne]; [lia|].
    rewrite lookup_insert_ne in Hp by congruence.
    apply Hsub in Hp as [Hp _]. apply HR in Hp. lia.
  - lia.
  - intros id [= <-]. lia.
  - intros id cb Hp.
    destruct (decide (id = next_timer (plat w))) as [-> | Hne]; [lia|].
    rewrite lookup_insert_ne in Hp by congruence.
    apply Hsub in Hp as [Hp Hcb]. destruct cb; [eauto | congruence].
Qed.

Lemma arm_end_spec n0 (delayMs : N) :
  hoare (arming n0)
    (bind (get (fun w => endTimeoutRef (hook w))) (fun e =>
     bind (match e with
           | Some id => if (id =? 0)%nat then ret tt else clearTimeout id
           | None => ret tt
           end) (fun _ =>
     bind (setTimeout EndCb delayMs) (fun id =>
     modify (upd_hook (with_endTimeoutRef (Some id)))))))
    (fun _ w => timers_inv w /\ fresh_from n0 w) timers_inv.
Proof.
  intros w Harm. pose proof Harm as ((HV & HE & HR & H1 & H5) & Hn & Hf).
  unfold bind at 1. unfold get.
  destruct (endTimeoutRef (hook w)) as [e|] eqn:He;
    [destruct (e =? 0)%nat eqn:Hz|].
  - apply Nat.eqb_eq in Hz. subst e.
    apply (arm_end_final n0 w
             (upd_plat (fun p => with_trace (trace p) p) w)) ;
      [exact Harm | reflexivity | reflexivity |].
    intros id cb Hp. split; [exact Hp|]. intros ->.
    pose proof (HE id Hp) as Hid. apply HR in Hp.
    injection Hid as <-. lia.
  - set (w1 := upd_plat (fun p => with_trace (trace p ++ [ClearTimeout e]) p)
                 (upd_plat (fun p =>
                    with_timers (base.delete e (timers p)) (next_timer p) p)
                    w)).
    pose proof (arm_end_final n0 w w1 Harm eq_refl eq_refl) as Hfin.
    cbn in Hfin. cbn. apply Hfin.
    intros id cb Hp. unfold pending in *. cbn in Hp.
    destruct (decide (id = e)) as [-> | Hne].
    + rewrite lookup_delete_eq in Hp. discriminate.
    + rewrite lookup_delete_ne in Hp by congruence.
      split; [exact Hp|]. intros ->. apply HE in Hp. congruence.
  - pose proof (arm_end_final n0 w w Harm eq_refl eq_refl) as Hfin.
    cbn in Hfin. cbn. apply Hfin.
    intros id cb Hp. split; [exact Hp|]. intros ->.
    apply HE in Hp. congruence.
Qed.

Definition at_start (n0 : timer_id) (w : World N) : Prop :=
  timers_inv w /\ next_timer (plat w) = n0.

Lemma at_start_view n0 (w w' : World N) :
  tview w' = tview w -> at_start n0 w -> at_start n0 w'.
Proof.
  intros Hv (HI & Hn). split; [eapply timers_inv_view; eauto|].
  unfold tview in Hv. injection Hv as _ -> _ _ _ _. exact Hn.
Qed.

Lemma at_start_inv n0 (w : World N) : at_start n0 w -> timers_inv w.
Proof. intros [HI _]. exact HI. Qed.

Lemma arming_inv n0 (w : World N) : arming n0 w -> timers_inv w.
Proof. intros [HI _]. exact HI. Qed.

Ltac frame_bind P Pview Pinv :=
  apply hoare_bind with (R := fun _ => P);
  [ apply (hoare_keeps tview P _ timers_inv Pview Pinv);
    repeat keeps_step
  | intros ? ].

Lemma start_timers n0 fs (D : N) (onEvent : bool) fresh ok :
  hoare (at_start n0) (start fs D onEvent fresh ok)
    (fun _ w =>
       timers_inv w
       /\ ((exists q qs, fs = Some (q :: qs)) ->
           hasAudioContext (plat w) = true -> fresh_from n0 w))
    timers_inv.
Proof.
  destruct fs as [[|q qs]|];
    try (intros w [HI _]; cbn; split; [exact HI|];
         intros (q' & qs' & [=])).
  unfold start.
  apply hoare_bind with
    (R := fun ctx w => at_start n0 w
                       /\ (ctx = None -> hasAudioContext (plat w) = false)).
  { intros w Hw. unfold getAudioContext, isSupported, bind, get.
    destruct (hasAudioContext (plat w)) eqn:Hs; cbn.
    - destruct (audioCtxRef (hook w)); cbn.
      + split; [exact Hw | discriminate].
      + split; [|discriminate].
        eapply at_start_view; [|exact Hw]. reflexivity.
    - split; [exact Hw | auto]. }
  intros [st|].
  2:{ intros w [[HI Hn] Hc]. cbn. split; [exact HI|].
      intros _ Hs. rewrite Hc in Hs by reflexivity. discriminate. }
  apply hoare_bind with (R := fun _ => at_start n0).
  { eapply hoare_conseq;
      [ apply (hoare_keeps tview (at_start n0) _ timers_inv
                 (at_start_view n0) (at_start_inv n0));
        repeat keeps_step
      | intros w [Hw _]; exact Hw | auto | auto ]. }
  intros _.
  frame_bind (at_start n0) (at_start_view n0) (at_start_inv n0).
  frame_bind (at_start n0) (at_start_view n0) (at_start_inv n0).
  frame_bind (at_start n0) (at_start_view n0) (at_start_inv n0).
  frame_bind (at_start n0) (at_start_view n0) (at_start_inv n0).
  frame_bind (at_start n0) (at_start_view n0) (at_start_inv n0).
  cbv zeta.
  apply hoare_bind with (R := fun _ w => arming n0 w /\ no_visual w).
  { apply hoare_of_eq. intros w [HI Hn].
    destruct (clearVisualTimeouts_spec w HI)
      as (w' & Heq & HI' & Hnv & _ & Hn' & _ & _).
    exists tt, w'. split; [exact Heq|]. split; [|exact Hnv].
    split_and!; [exact HI' | lia |].
    intros id r f Hp. exfalso. exact (Hnv id r f Hp). }
  intros _.
  apply hoare_bind with (R := fun _ => arming n0).
  { intros w [((HV & HE & HR & H1 & H5) & Hn & _) Hnv]. cbn.
    unfold arming, timers_inv, pending. cbn. split_and!; auto.
    - intros id r f Hp. exfalso. exact (Hnv id r f Hp).
    - intros id r f Hp. exfalso. exact (Hnv id r f Hp). }
  intros _.
  apply hoare_bind with (R := fun _ => arming n0).
  { apply hoare_for_each. intros feature _.
    frame_bind (arming n0) (arming_view n0) (arming_inv n0).
    destruct onEvent.
    - frame_bind (arming n0) (arming_view n0) (arming_inv n0).
      apply arm_visual_spec.
    - intros w Hw. exact Hw. }
  intros _.
  frame_bind (arming n0) (arming_view n0) (arming_inv n0).
  eapply hoare_conseq; [apply (arm_end_spec n0) | auto | | auto].
  intros _ w [HI Hf]. split; [exact HI|]. intros _ _. exact Hf.
Qed.

(** The refs and state after [stop]. *)
Definition stopped (h : Hook) : Hook :=
  {| audioCtxRef := audioCtxRef h; droneRef := droneRef h;
     endTimeoutRef := None; transientNodesRef := [];
     noiseBufferRef := noiseBufferRef h;
     reverbBufferRef := reverbBufferRef h;
     visualTimeoutsRef := []; isPlaying := false; runs := runs h |}.

Definition hview (w : World N) :=
  (hook w, timers (plat w), next_timer (plat w), hasAudioContext (plat w)).

Definition with_hook (h0 : Hook) (w : World N) : Prop :=
  timers_inv w /\ hook w = h0.

Lemma with_hook_view h0 (w w' : World N) :
  hview w' = hview w -> with_hook h0 w -> with_hook h0 w'.
Proof.
  unfold hview, with_hook, timers_inv, pending.
  intros Hv. injection Hv as -> -> -> _. trivial.
Qed.

Lemma with_hook_inv h0 (w : World N) : with_hook h0 w -> timers_inv w.
Proof. intros [HI _]. exact HI. Qed.

Lemma no_pending_empty (w : World N) :
  no_visual w -> no_end w -> timers (plat w) = ∅.
Proof.
  intros Hv He. apply map_empty. intros id.
  destruct (timers (plat w) !! id) as [[r f|]|] eqn:E; [| |reflexivity].
  - exfalso. exact (Hv id r f E).
  - exfalso. exact (He id E).
Qed.

Lemma stop_timers (h0 : Hook) :
  hoare (with_hook h0) stop
    (fun _ w => timers_inv w /\ hook w = stopped h0
                /\ timers (plat w) = ∅)
    timers_inv.
Proof.
  unfold stop.
  apply hoare_bind with (R := fun _ => with_hook h0);
    [apply (hoare_keeps hview _ _ _ (with_hook_view h0) (with_hook_inv h0));
     repeat keeps_step | intros ctx].
  apply hoare_bind with (R := fun _ => with_hook h0);
    [apply (hoare_keeps hview _ _ _ (with_hook_view h0) (with_hook_inv h0));
     repeat keeps_step | intros drone].
  apply hoare_bind with (R := fun _ => with_hook h0);
    [apply (hoare_keeps hview _ _ _ (with_hook_view h0) (with_hook_inv h0));
     repeat keeps_step | intros _].
  apply hoare_bind with (R := fun _ => with_hook h0);
    [apply (hoare_keeps hview _ _ _ (with_hook_view h0) (with_hook_inv h0));
     repeat keeps_step | intros nodes].
  apply hoare_bind with (R := fun _ => with_hook h0);
    [apply (hoare_keeps hview _ _ _ (with_hook_view h0) (with_hook_inv h0));
     repeat keeps_step | intros _].
  apply hoare_bind with
    (R := fun _ => with_hook (with_transientNodesRef [] h0)).
  { intros w [HI <-]. cbn. split; [|reflexivity].
    eapply timers_inv_view; [|exact HI]. reflexivity. }
  intros _.
  apply hoare_bind with
    (R := fun _ w =>
            with_hook (with_visualTimeoutsRef []
                         (with_transientNodesRef [] h0)) w
            /\ no_visual w).
  { apply hoare_of_eq. intros w [HI <-].
    destruct (clearVisualTimeouts_spec w HI)
      as (w' & Heq & HI' & Hnv & Hh & _).
    exists tt, w'. split; [exact Heq|]. split; [split|]; assumption. }
  intros _.
  intros w [[HI Hh] Hnv]. pose proof HI as (HV & HE & HR & H1 & H5).
  unfold bind at 1. unfold get.
  assert (endTimeoutRef (hook w) = endTimeoutRef h0) as Hend
    by (rewrite Hh; reflexivity).
  destruct (endTimeoutRef (hook w)) as [e|] eqn:He.
  - destruct (e =? 0)%nat eqn:Hz.
    { apply Nat.eqb_eq in Hz. subst e. specialize (H5 0%nat eq_refl).
      lia. }
    cbn.
    assert (forall id cb, base.delete e (timers (plat w)) !! id = Some cb ->
              pending w id cb /\ id <> e) as Hsub.
    { intros id cb Hp. destruct (decide (id = e)) as [-> | Hne].
      - rewrite lookup_delete_eq in Hp. discriminate.
      - rewrite lookup_delete_ne in Hp by congruence. auto. }
    split_and!.
    + unfold timers_inv, pending. cbn. split_and!; try assumption.
      * intros id r f Hp. apply Hsub in Hp as [Hp _].
        exfalso. exact (Hnv id r f Hp).
      * intros id Hp. apply Hsub in Hp as [Hp Hne].
        apply HE in Hp. congruence.
      * intros id cb Hp. apply Hsub in Hp as [Hp _]. eauto.
      * discriminate.
    + rewrite Hh. destruct h0. cbn in *. reflexivity.
    + apply map_empty. intros id.
      destruct (base.delete e (timers (plat w)) !! id) as [cb|] eqn:E;
        [|reflexivity].
      apply Hsub in E as [Hp Hne]. destruct cb as [r f|].
      * exfalso. exact (Hnv id r f Hp).
      * apply HE in Hp. congruence.
  - cbn. split_and!.
    + eapply timers_inv_view; [|exact HI]. reflexivity.
    + rewrite Hh. destruct h0. cbn in *. subst. reflexivity.
    + apply no_pending_empty; [exact Hnv|].
      intros id Hp. apply HE in Hp. congruence.
Qed.

Definition inv_triple {A} (m : M N A) : Prop :=
  hoare timers_inv m (fun _ => timers_inv) timers_inv.

Lemma inv_keeps {A} (m : M N A) : keeps tview m -> inv_triple m.
Proof. apply (hoare_keeps tview); [apply timers_inv_view | auto]. Qed.

Lemma stop_inv : inv_triple stop.
Proof.
  intros w HI. pose proof (stop_timers (hook w) w (conj HI eq_refl)) as Hs.
  destruct (stop w) as [[[]|] w']; [apply Hs | exact Hs].
Qed.

Lemma start_inv fs (D : N) onEvent fresh ok :
  inv_triple (start fs D onEvent fresh ok).
Proof.
  intros w HI.
  pose proof (start_timers (next_timer (plat w)) fs D onEvent fresh ok w
                (conj HI eq_refl)) as Hs.
  destruct (start fs D onEvent fresh ok w) as [[[]|] w'];
    [apply Hs | exact Hs].
Qed.

Lemma clearVisualTimeouts_inv : inv_triple clearVisualTimeouts.
Proof.
  apply hoare_of_eq. intros w HI.
  destruct (clearVisualTimeouts_spec w HI) as (w' & Heq & HI' & _).
  exists tt, w'. auto.
Qed.

Lemma unmount_inv : inv_triple unmount.
Proof.
  unfold unmount.
  apply hoare_bind with (R := fun _ => timers_inv); [apply stop_inv|].
  intros _.
  apply hoare_bind with (R := fun _ => timers_inv);
    [apply inv_keeps; repeat keeps_step | intros ctx].
  apply hoare_bind with (R := fun _ => timers_inv);
    [apply inv_keeps; repeat keeps_step | intros _].
  apply hoare_bind with (R := fun _ => timers_inv);
    [apply inv_keeps; repeat keeps_step | intros _].
  apply hoare_bind with (R := fun _ => timers_inv);
    [apply inv_keeps; repeat keeps_step | intros _].
  apply hoare_bind with (R := fun _ => timers_inv);
    [apply inv_keeps; repeat keeps_step | intros _].
  apply clearVisualTimeouts_inv.
Qed.

Lemma fire_inv id : inv_triple (fire id).
Proof.
  unfold fire.
  apply hoare_bind with
    (R := fun ts w => timers_inv w /\ ts = timers (plat w)).
  { intros w HI. cbn. auto. }
  intros ts. destruct (ts !! id) as [cb|] eqn:Hcb.
  - apply hoare_bind with (R := fun _ => timers_inv).
    + intros w [(HV & HE & HR & H1 & H5) ->]. cbn.
      assert (forall i c, base.delete id (timers (plat w)) !! i = Some c ->
                pending w i c) as Hsub.
      { intros i c Hp. destruct (decide (i = id)) as [-> | Hne].
        - rewrite lookup_delete_eq in Hp. discriminate.
        - rewrite lookup_delete_ne in Hp by congruence. exact Hp. }
      unfold timers_inv, pending. cbn. split_and!; eauto.
    + intros _. destruct cb; apply inv_keeps; repeat keeps_step.
  - intros w [HI _]. exact HI.
Qed.

Lemma step_inv (w : World N) (a : action) :
  timers_inv w -> timers_inv (step w a).
Proof.
  intros HI. unfold step.
  assert (inv_triple (perform a)) as Ha.
  { destruct a; cbn [perform].
    - apply start_inv.
    - apply stop_inv.
    - apply unmount_inv.
    - apply fire_inv.
    - apply inv_keeps. repeat keeps_step.
    - apply inv_keeps. repeat keeps_step. }
  specialize (Ha w HI). destruct (perform a w) as [[[]|] w']; exact Ha.
Qed.

Lemma init_inv (supported : bool) : timers_inv (init supported).
Proof.
  unfold timers_inv, pending. cbn. split_and!; try lia;
    intros; try discriminate; rewrite lookup_empty in *; discriminate.
Qed.

Lemma run_inv (w : World N) (acts : list action) :
  timers_inv w -> timers_inv (run w acts).
Proof.
  revert w. induction acts as [|a acts IH]; intros w HI; [exact HI|].
  cbn. apply IH. apply step_inv. exact HI.
Qed.

Lemma reachable_inv (w : World N) : reachable w -> timers_inv w.
Proof.
  intros (supported & acts & ->). apply run_inv. apply init_inv.
Qed.
End TimerInvariant.

(** ** Computations that do not throw *)

Section Totality.
Context {N : Type} `{JsNumber N}.

(** [total m]: [m] never throws. *)
Definition total {A} (m : M N A) : Prop :=
  forall w, exists a, fst (m w) = Ret a.

Lemma total_bind {A B} (m : M N A) (k : A -> M N B) :
  total m -> (forall a, total (k a)) -> total (bind m k).
Proof.
  intros Hm Hk w. unfold bind. destruct (Hm w) as [a Ha].
  destruct (m w) as [[a'|] w']; cbn in Ha; [|discriminate].
  apply Hk.
Qed.

Lemma total_ret {A} (a : A) : total (ret a).
Proof. intros w. exists a. reflexivity. Qed.

Lemma total_get {A} (f : World N -> A) : total (get f).
Proof. intros w. exists (f w). reflexivity. Qed.

Lemma total_modify (f : World N -> World N) : total (modify f).
Proof. intros w. exists tt. reflexivity. Qed.

Lemma total_try_catch (m : M N unit) : total (try_catch m).
Proof. intros w. exists tt. reflexivity. Qed.

Lemma total_for_each {A} (xs : list A) (body : A -> M N unit) :
  (forall x, total (body x)) -> total (for_each xs body).
Proof.
  intros Hb. induction xs as [|x xs IH]; cbn [for_each].
  - apply total_ret.
  - apply total_bind; [apply Hb | intros _; exact IH].
Qed.

(** A computation that returns from every world in [J] and leaves alone
    the part of the world that [J] looks at. *)
Lemma hoare_ok {V A} (view : World N -> V) (J : World N -> Prop)
    (m : M N A) :
  (forall w w', view w' = view w -> J w -> J w') ->
  (forall w, J w -> exists a, fst (m w) = Ret a) ->
  keeps view m ->
  hoare J m (fun _ => J) (fun _ => False).
Proof.
  intros HJ Hm Hk w Hw. specialize (Hk w). destruct (Hm w Hw) as [a Ha].
  destruct (m w) as [[a'|] w']; cbn in *; [|discriminate].
  eapply HJ; eauto.
Qed.

Lemma hoare_total {V A} (view : World N -> V) (J : World N -> Prop)
    (m : M N A) :
  (forall w w', view w' = view w -> J w -> J w') ->
  total m -> keeps view m ->
  hoare J m (fun _ => J) (fun _ => False).
Proof. intros HJ Hm. apply hoare_ok; auto. Qed.
End Totality.

(** One step of a proof that a computation does not throw. *)
Ltac total_step :=
  match goal with
  | |- total (bind _ _) => apply total_bind; [|intros ?]
  | |- total (for_each _ _) => apply total_for_each; intros ?
  | |- total (try_catch _) => apply total_try_catch
  | |- total (ret _) => apply total_ret
  | |- total (get _) => apply total_get
  | |- total (modify _) => apply total_modify
  | |- total (if ?b then _ else _) => destruct b
  | |- total (match ?x with _ => _ end) => destruct x
  | |- total ?m =>
      let h := head_of m in
      unfold h
  end.

(** ** The clock and the gain reading stay finite *)

Section Sanity.
Local Open Scope Q_scope.

(** The audio clock reads a finite, non-negative number and the drone
    gain a finite one. *)
Definition sane (w : World xnum) : Prop :=
  exists c g, clock (plat w) = XFin c /\ 0 <= c
              /\ gainReading (plat w) = XFin g.

Definition sview (w : World xnum) := (clock (plat w), gainReading (plat w)).

Lemma sane_view (w w' : World xnum) :
  sview w' = sview w -> sane w -> sane w'.
Proof. unfold sview, sane. intros [= -> ->]. trivial. Qed.

Lemma valid_time_fin (q : Q) : 0 <= q -> valid_time (XFin q) = true.
Proof.
  intros Hq. unfold valid_time, isFinite. cbn.
  destruct (Qlt_le_dec q (inject_Z 0)) as [Hlt|]; [|reflexivity].
  unfold inject_Z in Hlt. lra.
Qed.

Lemma valid_time_inv (x : xnum) :
  valid_time x = true -> exists q, x = XFin q /\ 0 <= q.
Proof.
  unfold valid_time, isFinite. destruct x as [|[|]|q]; cbn; try discriminate.
  destruct (Qlt_le_dec q (inject_Z 0)) as [|Hle]; [discriminate|].
  intros _. exists q. unfold inject_Z in Hle. auto.
Qed.

Lemma isFinite_fin (q : Q) : isFinite (XFin q) = true.
Proof. reflexivity. Qed.

Lemma isFinite_inv (x : xnum) : isFinite x = true -> exists q, x = XFin q.
Proof. destruct x as [|[|]|q]; cbn; try discriminate. eauto. Qed.

Definition at_time (now : xnum) (w : World xnum) : Prop :=
  sane w /\ clock (plat w) = now.

Lemma at_time_view now (w w' : World xnum) :
  sview w' = sview w -> at_time now w -> at_time now w'.
Proof.
  intros Hv [Hs Hc]. split; [eapply sane_view; eauto|].
  unfold sview in Hv. injection Hv as -> _. exact Hc.
Qed.

Lemma at_time_valid now w : at_time now w -> valid_time now = true.
Proof.
  intros [(c & g & Hc & Hc0 & _) <-]. rewrite Hc. apply valid_time_fin, Hc0.
Qed.

Lemma at_time_plus now w (k : Q) :
  0 <= k -> at_time now w -> valid_time (now + XFin k)%js = true.
Proof.
  intros Hk [(c & g & Hc & Hc0 & _) <-]. rewrite Hc. cbn [js_add xnum_number Exact.add].
  apply valid_time_fin. lra.
Qed.

(** The drone fade-out of [stop] does not throw. *)
Lemma fade_out_ok {A} (g : node_id) (now : xnum) (k : Q) (rest : M xnum A)
    (Q : A -> World xnum -> Prop) :
  0 <= k ->
  hoare (at_time now) rest Q (fun _ => False) ->
  hoare (at_time now)
    (bind (cancelScheduledValues g Gain now) (fun _ =>
     bind (get (fun w => gainReading (plat w))) (fun v =>
     bind (setValueAtTime g Gain v now) (fun _ =>
     bind (linearRampToValueAtTime g Gain (of_Z 0) (now + XFin k)%js)
       (fun _ => rest)))))
    Q (fun _ => False).
Proof.
  intros Hk Hrest.
  apply hoare_bind with (R := fun _ => at_time now).
  { apply (hoare_ok sview); [apply at_time_view | | repeat keeps_step].
    intros w Hw. unfold cancelScheduledValues.
    rewrite (at_time_valid _ _ Hw). cbn. eauto. }
  intros _.
  apply hoare_bind with
    (R := fun v w => at_time now w /\ v = gainReading (plat w)).
  { intros w Hw. cbn. auto. }
  intros v.
  apply hoare_bind with (R := fun _ => at_time now).
  { intros w [Hw ->]. pose proof Hw as [(c & g0 & Hc & Hc0 & Hg) Hn].
    unfold setValueAtTime. rewrite Hg, (at_time_valid _ _ Hw). cbn.
    eapply at_time_view; [|exact Hw]. reflexivity. }
  intros _.
  apply hoare_bind with (R := fun _ => at_time now); [|intros _; exact Hrest].
  apply (hoare_ok sview); [apply at_time_view | | repeat keeps_step].
  intros w Hw. unfold linearRampToValueAtTime.
  rewrite (at_time_plus _ _ k Hk Hw). cbn. eauto.
Qed.

Lemma stop_returns :
  hoare sane stop (fun _ => sane) (fun _ => False).
Proof.
  unfold stop.
  apply hoare_bind with (R := fun _ => sane);
    [apply (hoare_total sview); [apply sane_view | | ];
     [repeat total_step | repeat keeps_step] | intros ctx].
  apply hoare_bind with (R := fun _ => sane);
    [apply (hoare_total sview); [apply sane_view | | ];
     [repeat total_step | repeat keeps_step] | intros drone].
  apply hoare_bind with (R := fun _ => sane).
  { destruct ctx as [st|]; [destruct drone as [d|]|];
      try (intros w Hw; exact Hw).
    apply hoare_bind with (R := fun now => at_time now).
    { intros w Hw. cbn. split; [exact Hw | reflexivity]. }
    intros now.
    apply (fade_out_ok (gain d) now (25 # 10)); [lra|].
    eapply hoare_conseq with (P' := at_time now)
                             (Q' := fun _ => at_time now)
                             (E' := fun _ => False);
      [| auto | intros _ w [Hw _]; exact Hw | auto].
    apply (hoare_total sview); [apply at_time_view | | ];
      [repeat total_step | repeat keeps_step]. }
  intros _.
  apply (hoare_total sview); [apply sane_view | | ];
    [repeat total_step | repeat keeps_step].
Qed.
End Sanity.

(** ** Without a new [start] nothing is armed and nothing fires *)

Section Quiet.
Context {N : Type} `{JsNumber N}.




Definition pres {A} (J : World N -> Prop) (m : M N A) : Prop :=
  hoare J m (fun _ => J) J.

Lemma pres_bind {A B} J (m : M N A) (k : A -> M N B) :
  pres J m -> (forall a, pres J (k a)) -> pres J (bind m k).
Proof. intros Hm Hk. apply hoare_bind with (R := fun _ => J); auto. Qed.

Lemma pres_for_each {A} J (xs : list A) (body : A -> M N unit) :
  (forall x, pres J (body x)) -> pres J (for_each xs body).
Proof. intros Hb. apply hoare_for_each. intros x _. apply Hb. Qed.

Lemma pres_try_catch J (m : M N unit) : pres J m -> pres J (try_catch m).
Proof. intros Hm. apply hoare_try_catch. exact Hm. Qed.

Lemma pres_id {A} J (m : M N A) :
  (forall w, snd (m w) = w) -> pres J m.
Proof.
  intros Hm w Hw. specialize (Hm w).
  destruct (m w) as [[a|] w']; cbn in Hm; subst; exact Hw.
Qed.

Lemma pres_modify J (f : World N -> World N) :
  (forall w, J w -> J (f w)) -> pres J (modify f).
Proof. intros Hf w Hw. apply Hf, Hw. Qed.
End Quiet.

(** One step of a proof that a computation preserves an invariant;
    [leaf] settles the field updates. *)
Ltac pres_step leaf :=
  match goal with
  | |- pres _ (bind _ _) => apply pres_bind; [|intros ?]
  | |- pres _ (for_each _ _) => apply pres_for_each; intros ?
  | |- pres _ (try_catch _) => apply pres_try_catch
  | |- pres _ (ret _) => apply pres_id; intros ?; reflexivity
  | |- pres _ throw => apply pres_id; intros ?; reflexivity
  | |- pres _ (get _) => apply pres_id; intros ?; reflexivity
  | |- pres _ (modify _) => apply pres_modify; leaf
  | |- pres _ (if ?b then _ else _) => destruct b
  | |- pres _ (match ?x with _ => _ end) => destruct x
  | |- pres _ ?m =>
      let h := head_of m in
      unfold h
  end.

Section QuietSteps.
Context {N : Type} `{JsNumber N}.



End QuietSteps.

(** ** Reachable states *)

Section Reachable.
Local Open Scope Q_scope.

Lemma step_sane (w : World xnum) (a : action) : sane w -> sane (step w a).
Proof.
  intros Hs. unfold step.
  assert (hoare sane (perform a) (fun _ => sane) sane) as Hp.
  { destruct a; cbn [perform];
      try solve [apply (hoare_keeps sview); [apply sane_view | auto |];
                 repeat keeps_step].
    intros w0 Hw0. unfold tick, bind, currentTime, get.
    destruct (valid_time c) eqn:Hc; cbn; [|exact Hw0].
    destruct (isFinite g) eqn:Hg; cbn; [|exact Hw0].
    destruct (Exact.lt c (clock (plat w0))); cbn; [exact Hw0|].
    apply valid_time_inv in Hc as (q & -> & Hq).
    apply isFinite_inv in Hg as (g' & ->).
    exists q, g'. auto. }
  specialize (Hp w Hs). destruct (perform a w) as [[[]|] w']; exact Hp.
Qed.

Lemma reachable_sane (w : World xnum) : reachable w -> sane w.
Proof.
  intros (supported & acts & ->).
  assert (sane (init supported)) as Hi.
  { exists 0, 0. cbn. repeat split. lra. }
  revert Hi. generalize (init (N:=xnum) supported).
  induction acts as [|a acts IH]; intros w Hw; [exact Hw|].
  cbn. apply IH. apply step_sane. exact Hw.
Qed.

Lemma reachable_step (w : World xnum) (a : action) :
  reachable w -> reachable (step w a).
Proof.
  intros (supported & acts & ->). exists supported, (acts ++ [a]).
  unfold run. rewrite foldl_app. reflexivity.
Qed.


(** C10: in every reachable state at most one end-of-playback timer is
    pending, and every pending visual timer was armed by the latest
    scheduling pass of [start] and is tracked in [visualTimeoutsRef];
    and when a [start] on a non-empty collection returns, on a platform
    with audio, every timer then pending was armed by that very call: it
    has cleared the visual timers and the end-of-playback timer it
    found. *)
Theorem timers_of_latest_start (w : World xnum) (Hr : reachable w) :
  (forall id id', pending w id EndCb -> pending w id' EndCb -> id = id')
  /\ (forall id r f, pending w id (VisualCb r f) ->
        r = runs (hook w) /\ id ∈ visualTimeoutsRef (hook w))
  /\ (forall q qs D onEvent fresh ok w',
        hasAudioContext (plat w) = true ->
        start (Some (q :: qs)) D onEvent fresh ok w = (Ret tt, w') ->
        forall id cb, pending w' id cb ->
          (next_timer (plat w) <= id)%nat).
Proof.
  pose proof (reachable_inv w Hr) as HI.
  pose proof HI as (HV & HE & HR & H1 & H5).
  split_and!.
  - intros id id' Hp Hp'. apply HE in Hp. apply HE in Hp'. congruence.
  - intros id r f Hp. apply HV in Hp. tauto.
  - intros q qs D onEvent fresh ok w' Hsup Hstart.
    pose proof (start_timers (next_timer (plat w)) (Some (q :: qs)) D
                  onEvent fresh ok w (conj HI eq_refl)) as Hs.
    assert (keeps (fun w => hasAudioContext (plat w))
              (start (Some (q :: qs)) D onEvent fresh ok)) as Hk
      by (repeat keeps_step).
    specialize (Hk w). rewrite Hstart in Hs, Hk. cbn in Hk.
    destruct Hs as [_ Hf]. apply Hf; [eauto | congruence].
Qed.
End Reachable.

(** A collection of two events one second apart, played with the visual
    callback over 60 s from the freshly mounted hook. *)
Definition playing_world : World xnum :=
  run (init true)
    [AStart (Some [quake_at 0; quake_at 1000]) (of_Z 60) true Suspended true].

Lemma playing_world_reachable : reachable playing_world.
Proof. eexists true, _. reflexivity. Qed.


Lemma timers_of_latest_start_witness :
  reachable playing_world
  /\ forall id id', pending playing_world id EndCb ->
                    pending playing_world id' EndCb -> id = id'.
Proof.
  split; [exact playing_world_reachable|].
  exact (proj1 (timers_of_latest_start playing_world
                  playing_world_reachable)).
Defined.

(** ** [stop], once and twice *)

Section FadeOut.
Local Open Scope Q_scope.

(** The events of a timeline that are not yet over at [now]:
    [cancelScheduledValues(now)] would drop exactly these. *)
Definition pending_events {N} `{JsNumber N} (now : N)
    (evs : list auto_event) : list auto_event :=
  List.filter (fun e => negb (ev_time e <? now)%js) evs.

(** The number of ramps of gain node [g] to 0 that were requested. *)
Definition fade_out_ramps {N} `{JsNumber N} (g : node_id)
    (tr : list command) : nat :=
  length (List.filter
            (fun c => match c with
                      | ParamRamp n Gain v _ =>
                          (n =? g)%nat && (v === of_Z 0)%js
                      | _ => false
                      end) tr).

(** The drone gain right after a fade-out over [k] seconds: what was
    scheduled before the clock is kept, the rest is replaced by a hold at
    the current reading and one ramp to 0. *)
Definition fading (k : Q) (g : node_id) (w : World xnum) : Prop :=
  exists c gv old,
    clock (plat w) = XFin c /\ 0 <= c
    /\ gainReading (plat w) = XFin gv
    /\ automation (plat w) !! g
       = Some (List.filter (fun e => ev_time e <? XFin c)%js old
               ++ [SetValueAtTime (XFin gv) (XFin c);
                   LinearRampToValueAtTime (of_Z 0) (XFin c + XFin k)%js]).

Definition aview (w : World xnum) :=
  (automation (plat w), clock (plat w), gainReading (plat w)).

Lemma fading_view k g (w w' : World xnum) :
  aview w' = aview w -> fading k g w -> fading k g w'.
Proof. unfold aview, fading. intros [= -> -> ->]. trivial. Qed.

Lemma filter_filter_neg {A} (p : A -> bool) (l : list A) :
  List.filter (fun x => negb (p x)) (List.filter p l) = [].
Proof.
  induction l as [|x l IH]; [reflexivity|]. cbn.
  destruct (p x) eqn:E; [|exact IH]. cbn. rewrite E. cbn. exact IH.
Qed.

Lemma fading_pending k g (w : World xnum) :
  0 <= k -> fading k g w ->
  exists c gv,
    clock (plat w) = XFin c /\ gainReading (plat w) = XFin gv
    /\ pending_events (clock (plat w)) (default [] (automation (plat w) !! g))
       = [SetValueAtTime (XFin gv) (XFin c);
          LinearRampToValueAtTime (of_Z 0) (XFin c + XFin k)%js].
Proof.
  intros Hk (c & gv & old & Hc & Hc0 & Hg & Ha). exists c, gv.
  split_and!; try assumption. rewrite Ha, Hc. cbn [from_option id].
  unfold pending_events. rewrite List.filter_app, filter_filter_neg.
  cbn. destruct (Qlt_le_dec c c); [lra|].
  destruct (Qlt_le_dec (c + k) c); [lra|]. reflexivity.
Qed.

Lemma fade_out_fading {A} (g : node_id) (now : xnum) (k : Q)
    (rest : M xnum A) (Q : A -> World xnum -> Prop) :
  0 <= k ->
  hoare (fun w => at_time now w /\ fading k g w) rest Q (fun _ => False) ->
  hoare (at_time now)
    (bind (cancelScheduledValues g Gain now) (fun _ =>
     bind (get (fun w => gainReading (plat w))) (fun v =>
     bind (setValueAtTime g Gain v now) (fun _ =>
     bind (linearRampToValueAtTime g Gain (of_Z 0) (now + XFin k)%js)
       (fun _ => rest)))))
    Q (fun _ => False).
Proof.
  intros Hk Hrest w Hw.
  pose proof Hw as [(c & gv & Hc & Hc0 & Hg) Hn].
  rewrite Hc in Hn. subst now.
  pose proof (valid_time_fin c Hc0) as Hv.
  assert (valid_time (XFin (c + k)) = true) as Hv'
    by (apply valid_time_fin; lra).
  unfold bind at 1. unfold cancelScheduledValues. rewrite Hv.
  cbn -[valid_time]. rewrite Hg.
  unfold bind at 1. unfold setValueAtTime. rewrite Hv. cbn -[valid_time].
  unfold bind at 1. unfold linearRampToValueAtTime. rewrite Hv'.
  cbn -[valid_time].
  match goal with
  | |- match rest ?w1 with _ => _ end => apply (Hrest w1)
  end.
  split.
  - eapply at_time_view; [|exact Hw]. reflexivity.
  - exists c, gv, (default [] (automation (plat w) !! g)). cbn.
    split_and!; try assumption; try reflexivity.
    rewrite !lookup_insert_eq. cbn. rewrite <- app_assoc. reflexivity.
Qed.

(** Exactly one fade-out is pending on gain node [g]: a hold at the
    current reading and a 2.5 s ramp to 0. *)
Definition fade_pending (g : node_id) (w : World xnum) : Prop :=
  pending_events (clock (plat w)) (default [] (automation (plat w) !! g))
  = [SetValueAtTime (gainReading (plat w)) (clock (plat w));
     LinearRampToValueAtTime (of_Z 0) (clock (plat w) + dec 25 1)%js].

Lemma fading_fade_pending g (w : World xnum) :
  fading (25 # 10) g w -> fade_pending g w.
Proof.
  intros Hf. destruct (fading_pending (25 # 10) g w ltac:(lra) Hf)
    as (c & gv & Hc & Hg & Hp).
  unfold fade_pending. rewrite Hp, Hc, Hg. reflexivity.
Qed.

Definition with_drone (st : ctx_state) (d : DroneNodes) (w : World xnum)
  : Prop :=
  sane w /\ audioCtxRef (hook w) = Some st /\ droneRef (hook w) = Some d.

Lemma stop_fades (st : ctx_state) (d : DroneNodes) :
  hoare (with_drone st d) stop
    (fun _ => fading (25 # 10) (gain d)) (fun _ => False).
Proof.
  unfold stop.
  apply hoare_bind with
    (R := fun ctx w => sane w /\ ctx = Some st
                       /\ droneRef (hook w) = Some d).
  { intros w (Hs & Hc & Hd). cbn. auto. }
  intros ctx.
  apply hoare_bind with
    (R := fun drone w => sane w /\ ctx = Some st /\ drone = Some d).
  { intros w (Hs & Hc & Hd). cbn. auto. }
  intros drone.
  apply hoare_bind with (R := fun _ => fading (25 # 10) (gain d)).
  - destruct ctx as [st'|]; [|intros w (_ & [=] & _)].
    destruct drone as [d'|]; [|intros w (_ & _ & [=])].
    apply hoare_bind with
      (R := fun now w => at_time now w /\ d' = d).
    { intros w (Hs & _ & [= ->]). cbn. repeat split. exact Hs. }
    intros now.
    eapply hoare_conseq with
      (P' := fun w => at_time now w /\ d' = d)
      (Q' := fun _ w => fading (25 # 10) (gain d) w)
      (E' := fun _ => False); [| auto | auto | auto].
    intros w [Hw ->]. revert w Hw.
    apply (fade_out_fading (gain d) now (25 # 10)); [lra|].
    eapply hoare_conseq with
      (P' := fading (25 # 10) (gain d))
      (Q' := fun _ => fading (25 # 10) (gain d))
      (E' := fun _ => False); [| intros w [_ Hf]; exact Hf | auto | auto].
    apply (hoare_total aview); [apply fading_view | | ];
      [repeat total_step | repeat keeps_step].
  - intros _.
    apply (hoare_total aview); [apply fading_view | | ];
      [repeat total_step | repeat keeps_step].
Qed.

Lemma stop_without_drone (a : gmap node_id (list (@auto_event xnum))) :
  hoare (fun w => (audioCtxRef (hook w) = None \/ droneRef (hook w) = None)
                  /\ automation (plat w) = a)
    stop (fun _ w => automation (plat w) = a) (fun _ => True).
Proof.
  unfold stop.
  apply hoare_bind with
    (R := fun ctx w => (ctx = None \/ droneRef (hook w) = None)
                       /\ automation (plat w) = a).
  { intros w Hw. exact Hw. }
  intros ctx.
  apply hoare_bind with
    (R := fun drone w => (ctx = None \/ drone = None)
                         /\ automation (plat w) = a).
  { intros w Hw. exact Hw. }
  intros drone.
  apply hoare_bind with (R := fun _ w => automation (plat w) = a).
  - destruct ctx as [st|]; [destruct drone as [d|]|];
      try (intros w [_ Ha]; exact Ha).
    intros w [[[=]|[=]] _].
  - intros _.
    apply (hoare_keeps (fun w => automation (plat w)));
      [intros w w' -> | auto | repeat keeps_step]. trivial.
Qed.

Lemma stopped_idem {N} `{JsNumber N} (h : Hook) : stopped (stopped h) = stopped h.
Proof. reflexivity. Qed.

(** C4, as amended: from every reachable state, also before any [start],
    during playback and after its natural end, [stop] returns without
    throwing and so does a second [stop] right after it; the playing flag
    is false and the state is [Ready] (when the platform has audio); the
    second call leaves the refs, the state and the (empty) timer queue as
    the first left them.  When no drone exists yet [stop] schedules
    nothing on any gain.  When the drone exists, every call, the second
    too, cancels the pending automation of the drone gain and requests a
    new 2.5 s ramp to 0 from the current reading, so that after each call
    exactly one fade-out ramp is pending. *)
Theorem stop_idempotent (w : World xnum) (Hr : reachable w) :
  exists w1 w2,
    stop w = (Ret tt, w1) /\ stop w1 = (Ret tt, w2)
    /\ isPlaying (hook w1) = false
    /\ lifecycle_of w1
       = (if hasAudioContext (plat w) then Ready else Unsupported)
    /\ hook w2 = hook w1
    /\ timers (plat w1) = ∅ /\ timers (plat w2) = ∅
    /\ match audioCtxRef (hook w), droneRef (hook w) with
       | Some _, Some d =>
           fade_pending (gain d) w1 /\ fade_pending (gain d) w2
       | _, _ => automation (plat w1) = automation (plat w)
                 /\ automation (plat w2) = automation (plat w)
       end.
Proof.
  pose proof (reachable_step w AStop Hr) as Hr1.
  pose proof (stop_returns w (reachable_sane w Hr)) as Hret.
  pose proof (stop_timers (hook w) w (conj (reachable_inv w Hr) eq_refl))
    as Hst.
  assert (keeps (fun w : World xnum => hasAudioContext (plat w)) stop) as Hk
    by (repeat keeps_step).
  specialize (Hk w).
  pose proof (stop_fades) as Hfade.
  pose proof (stop_without_drone (automation (plat w)) w) as Hnone.
  unfold step in Hr1. cbn [perform] in Hr1.
  destruct (stop w) as [[[]|] w1] eqn:Hs1; [|contradiction].
  cbn in Hr1, Hk.
  destruct Hst as (HI1 & Hh1 & Ht1).
  pose proof (stop_returns w1 (reachable_sane w1 Hr1)) as Hret2.
  pose proof (stop_timers (hook w1) w1 (conj HI1 eq_refl)) as Hst2.
  pose proof (stop_without_drone (automation (plat w1)) w1) as Hnone2.
  destruct (stop w1) as [[[]|] w2] eqn:Hs2; [|contradiction].
  destruct Hst2 as (HI2 & Hh2 & Ht2).
  exists w1, w2. split_and!; try reflexivity; try assumption.
  - rewrite Hh1. reflexivity.
  - unfold lifecycle_of. rewrite Hk, Hh1. cbn.
    destruct (hasAudioContext (plat w)); reflexivity.
  - rewrite Hh2, Hh1. reflexivity.
  - destruct (audioCtxRef (hook w)) as [st|] eqn:Hctx;
      [destruct (droneRef (hook w)) as [d|] eqn:Hd|].
    + pose proof (Hfade st d w
                    (conj (reachable_sane w Hr) (conj Hctx Hd))) as Hf1.
      rewrite Hs1 in Hf1.
      assert (with_drone st d w1) as Hwd1.
      { split; [exact Hret|]. rewrite Hh1. cbn. auto. }
      pose proof (Hfade st d w1 Hwd1) as Hf2. rewrite Hs2 in Hf2.
      split; apply fading_fade_pending; assumption.
    + specialize (Hnone (conj (or_intror eq_refl) eq_refl)).
      assert (automation (plat w1) = automation (plat w)) as Ha1 by exact Hnone.
      split; [exact Ha1|]. rewrite <- Ha1. apply Hnone2. split; [|reflexivity].
      right. rewrite Hh1. cbn. exact Hd.
    + specialize (Hnone (conj (or_introl eq_refl) eq_refl)).
      assert (automation (plat w1) = automation (plat w)) as Ha1 by exact Hnone.
      split; [exact Ha1|]. rewrite <- Ha1. apply Hnone2. split; [|reflexivity].
      left. rewrite Hh1. cbn. exact Hctx.
Qed.
End FadeOut.

(** C4 as stated fails once the drone exists: after a [start], the first
    [stop] requests one ramp of the drone gain (node 5) to 0 and a second
    [stop] right after it requests another one. *)
Lemma stop_twice_ramps_twice :
  let w1 := step playing_world AStop in
  let w2 := step w1 AStop in
  (gain <$> droneRef (hook playing_world)) = Some 5%nat
  /\ fade_out_ramps 5%nat (trace (plat playing_world)) = 0%nat
  /\ fade_out_ramps 5%nat (trace (plat w1)) = 1%nat
  /\ fade_out_ramps 5%nat (trace (plat w2)) = 2%nat.
Proof. vm_compute. repeat split. Qed.

(** C8, the code at the failing input: after [start] and [stop] each of the
    three drone oscillators has been told to stop 3 s after the clock, and
    a second [start] reuses the same drone nodes, starts no oscillator of
    the drone again and fades its gain in. *)
Lemma stop_stops_drone_oscillators :
  let w1 := step playing_world AStop in
  let w2 :=
    step w1 (AStart (Some [quake_at 0; quake_at 1000]) (of_Z 60) true
               Suspended true) in
  (oscs <$> droneRef (hook playing_world)) = Some [0; 1; 2]%nat
  /\ (src_stop <$> sources (plat playing_world) !! 0%nat) = Some None
  /\ (src_stop <$> sources (plat w1) !! 0%nat) = Some (Some (XFin 3))
  /\ (src_stop <$> sources (plat w1) !! 1%nat) = Some (Some (XFin 3))
  /\ (src_stop <$> sources (plat w1) !! 2%nat) = Some (Some (XFin 3))
  /\ droneRef (hook w2) = droneRef (hook playing_world)
  /\ (src_stop <$> sources (plat w2) !! 0%nat) = Some (Some (XFin 3))
  /\ (src_stop <$> sources (plat w2) !! 1%nat) = Some (Some (XFin 3))
  /\ (src_stop <$> sources (plat w2) !! 2%nat) = Some (Some (XFin 3))
  /\ isPlaying (hook w2) = true.
Proof. vm_compute. repeat split. Qed.

Lemma stop_idempotent_witness :
  reachable playing_world
  /\ exists w1 w2,
       stop playing_world = (Ret tt, w1) /\ stop w1 = (Ret tt, w2)
       /\ hook w2 = hook w1.
Proof.
  assert (reachable playing_world) as Hr by (eexists true, _; reflexivity).
  split; [exact Hr|].
  destruct (stop_idempotent playing_world Hr)
    as (w1 & w2 & H1 & H2 & _ & _ & Hh & _).
  exists w1, w2. auto.
Defined.

(** ** Event voices *)

(** *** The parameters of a voice are finite *)

Section Voice.
Local Open Scope Q_scope.

Lemma mapRange_finite (v : xnum) (a b c d : Q) :
  a <= b -> isFinite (mapRange v (XFin a) (XFin b) (XFin c) (XFin d)) = true.
Proof.
  intros Hab. destruct (mapRange_between v a b c d Hab) as (r & -> & _).
  reflexivity.
Qed.

Lemma panPos_finite (lat : xnum) : isFinite (panPos lat) = true.
Proof.
  unfold panPos.
  remember (dec (-9) 1) as lo eqn:Hlo. remember (dec 9 1) as hi eqn:Hhi.
  vm_compute in Hlo, Hhi. subst.
  apply (mapRange_finite lat (inject_Z (-90)) (inject_Z 90)).
  unfold inject_Z. lra.
Qed.

Lemma peakGain_finite (mag : xnum) : isFinite (peakGain mag) = true.
Proof.
  unfold peakGain. destruct (magClamped_range mag) as (m & -> & _).
  remember (dec 3 2) as lo eqn:Hlo. remember (dec 18 2) as hi eqn:Hhi.
  vm_compute in Hlo, Hhi. subst.
  apply (mapRange_finite _ (inject_Z 0) (inject_Z 7)).
  unfold inject_Z. lra.
Qed.

Lemma noisePeak_finite (mag : xnum) : isFinite (noisePeak mag) = true.
Proof.
  unfold noisePeak. destruct (magClamped_range mag) as (m & -> & _).
  remember (dec 1 2) as lo eqn:Hlo. remember (dec 6 2) as hi eqn:Hhi.
  vm_compute in Hlo, Hhi. subst.
  apply (mapRange_finite _ (inject_Z 0) (inject_Z 7)).
  unfold inject_Z. lra.
Qed.

Lemma centerFreq_finite (depthKm : xnum) :
  isFinite (centerFreq depthKm) = true.
Proof.
  unfold centerFreq. destruct (depthClamped_range depthKm) as (m & -> & _).
  apply (mapRange_finite _ (inject_Z 0) (inject_Z 700)).
  unfold inject_Z. lra.
Qed.

Lemma semis_defined (mag : xnum) :
  bool_decide (is_Some (semis mag)) = true.
Proof.
  destruct (idx_floor_range mag) as (i & Hi & Hlt).
  apply bool_decide_eq_true_2. unfold semis.
  rewrite Hi, (to_index_nat i Hlt). cbn [mbind option_bind].
  apply lookup_lt_is_Some_2. exact Hlt.
Qed.

(** The start of a voice: the target less 20 ms, but not before the
    clock. *)
Lemma safeStart_fin (c t : Q) :
  exists s, safeStart (XFin c) (XFin t) = XFin s /\ c <= s
            /\ (t - (2 # 100) <= c -> s = c).
Proof.
  unfold safeStart. remember (dec 2 2) as k eqn:Hk. vm_compute in Hk.
  subst k. cbn.
  destruct (Qlt_le_dec c (t + - (2 # 100))) as [Hlt | Hle].
  - eexists. split; [reflexivity|]. split; [lra|]. intros. lra.
  - exists c. split; [reflexivity|]. split; [lra|]. reflexivity.
Qed.

End Voice.

(** *** Sources and node identifiers *)

Section Nodes.
Context {N : Type} `{JsNumber N}.

(** [grows m]: [m] never takes back a node identifier. *)
Definition grows {A} (m : M N A) : Prop :=
  forall w, (next_node (plat w) <= next_node (plat (snd (m w))))%nat.

Lemma grows_bind {A B} (m : M N A) (k : A -> M N B) :
  grows m -> (forall a, grows (k a)) -> grows (bind m k).
Proof.
  intros Hm Hk w. unfold bind. specialize (Hm w).
  destruct (m w) as [[a|] w']; cbn in *; [|exact Hm].
  specialize (Hk a w'). lia.
Qed.

Lemma grows_id {A} (m : M N A) :
  (forall w, next_node (plat (snd (m w))) = next_node (plat w)) -> grows m.
Proof. intros Hm w. rewrite Hm. lia. Qed.

Lemma grows_keeps {A} (m : M N A) :
  keeps (fun w => next_node (plat w)) m -> grows m.
Proof. intros Hm. apply grows_id. exact Hm. Qed.

Lemma grows_for_each {A} (xs : list A) (body : A -> M N unit) :
  (forall x, grows (body x)) -> grows (for_each xs body).
Proof.
  intros Hb. induction xs as [|x xs IH]; cbn [for_each].
  - intros w. cbn. lia.
  - apply grows_bind; [apply Hb | intros _; exact IH].
Qed.

Lemma grows_create k : grows (create k).
Proof. intros w. cbn. lia. Qed.

Lemma grows_if {A} (b : bool) (m1 m2 : M N A) :
  grows m1 -> grows m2 -> grows (if b then m1 else m2).
Proof. destruct b; auto. Qed.

(** What the engine knows of the sources: the clock, the transient set
    and the started sources. *)
Definition mview (w : World N) :=
  (clock (plat w), transientNodesRef (hook w), sources (plat w)).

(** The clock reads [c], the transient set is [L], the started sources
    are [S] and the node identifiers below [n0] are taken. *)
Definition nodes_at (c : N) (L : list node_id) (S : gmap node_id source)
    (n0 : node_id) (w : World N) : Prop :=
  clock (plat w) = c /\ transientNodesRef (hook w) = L
  /\ sources (plat w) = S /\ (n0 <= next_node (plat w))%nat.

Lemma nodes_at_frame {A} c L S n0 (m : M N A) (E : World N -> Prop) :
  total m -> keeps mview m -> grows m ->
  hoare (nodes_at c L S n0) m (fun _ => nodes_at c L S n0) E.
Proof.
  intros Ht Hk Hg w (Hc & HL & HS & Hn).
  specialize (Hk w). specialize (Hg w). destruct (Ht w) as [a Ha].
  destruct (m w) as [[a'|] w']; cbn in *; [|discriminate].
  unfold mview in Hk. injection Hk as Hk1 Hk2 Hk3.
  unfold nodes_at. split_and!; try congruence. lia.
Qed.

Lemma nodes_at_create c L S n0 (k : node_kind) (E : World N -> Prop) :
  hoare (nodes_at c L S n0) (create k)
    (fun n w => (n0 <= n)%nat /\ nodes_at c L S (Datatypes.S n) w) E.
Proof.
  intros w (Hc & HL & HS & Hn). cbn. unfold nodes_at. cbn.
  split_and!; auto.
Qed.

Lemma nodes_at_currentTime c L S n0 (E : World N -> Prop) :
  hoare (nodes_at c L S n0) currentTime
    (fun now w => now = c /\ nodes_at c L S n0 w) E.
Proof. intros w Hw. cbn. split; [apply Hw | exact Hw]. Qed.

Lemma nodes_at_sourceStart c L S n0 (n : node_id) (t : N)
    (E : World N -> Prop) :
  S !! n = None -> valid_time t = true ->
  hoare (nodes_at c L S n0) (sourceStart n t)
    (fun _ =>
       nodes_at c L
         (<[n := {| src_start := t; src_stop := None;
                    src_ended := false |}]> S) n0)
    E.
Proof.
  intros Hn Ht w (Hc & HL & HS & Hn0).
  unfold sourceStart, bind, get. rewrite HS, Hn, Ht. cbn.
  unfold nodes_at. cbn. split_and!; auto; try (rewrite HS; reflexivity).
Qed.

Lemma nodes_at_sourceStop c L S n0 (n : node_id) (s t : N) st
    (E : World N -> Prop) :
  S !! n = Some {| src_start := s; src_stop := st; src_ended := false |} ->
  valid_time t = true ->
  hoare (nodes_at c L S n0) (sourceStop n t)
    (fun _ =>
       nodes_at c L
         (<[n := {| src_start := s; src_stop := Some t;
                    src_ended := false |}]> S) n0)
    E.
Proof.
  intros Hn Ht w (Hc & HL & HS & Hn0).
  unfold sourceStop, bind, get. rewrite HS, Hn, Ht. cbn.
  unfold nodes_at. cbn. split_and!; auto; try (rewrite HS; reflexivity).
Qed.

(** A source started at [s], told to stop at [st], still running. *)
Definition started (s : N) (st : option N) : source :=
  {| src_start := s; src_stop := st; src_ended := false |}.

Lemma nodes_at_restop c L S0 n0 (n : node_id) (s t : N) st
    (E : World N -> Prop) :
  valid_time t = true ->
  hoare (nodes_at c L (<[n := started s st]> S0) n0) (sourceStop n t)
    (fun _ => nodes_at c L (<[n := started s (Some t)]> S0) n0) E.
Proof.
  intros Ht w Hw.
  pose proof (nodes_at_sourceStop c L (<[n := started s st]> S0) n0 n s t st
                E (lookup_insert_eq _ _ _) Ht w Hw) as Hstop.
  destruct (sourceStop n t w) as [[[]|] w']; [|exact Hstop].
  rewrite insert_insert_eq in Hstop. exact Hstop.
Qed.

Lemma nodes_at_transient_add c L S n0 (n : node_id)
    (E : World N -> Prop) :
  n ∉ L ->
  hoare (nodes_at c L S n0) (transientNodes_add n)
    (fun _ => nodes_at c (L ++ [n]) S n0) E.
Proof.
  intros Hn w (Hc & HL & HS & Hn0). cbn. unfold nodes_at. cbn.
  rewrite HL, (bool_decide_eq_false_2 _ Hn). split_and!; auto.
Qed.

Lemma nodes_at_mono c L S n0 n1 (w : World N) :
  (n1 <= n0)%nat -> nodes_at c L S n0 w -> nodes_at c L S n1 w.
Proof. intros Hle (Hc & HL & HS & Hn). unfold nodes_at. split_and!; auto. lia. Qed.

Lemma total_setValueAtTime n p (v t : N) :
  isFinite v = true -> valid_time t = true -> total (setValueAtTime n p v t).
Proof.
  intros Hv Ht. unfold setValueAtTime. rewrite Hv, Ht. cbn [andb].
  repeat total_step.
Qed.

Lemma total_linearRamp n p (v t : N) :
  isFinite v = true -> valid_time t = true ->
  total (linearRampToValueAtTime n p v t).
Proof.
  intros Hv Ht. unfold linearRampToValueAtTime. rewrite Hv, Ht. cbn [andb].
  repeat total_step.
Qed.

Lemma total_cancel n p (t : N) :
  valid_time t = true -> total (cancelScheduledValues n p t).
Proof.
  intros Ht. unfold cancelScheduledValues. rewrite Ht. repeat total_step.
Qed.

Lemma total_setPitch n (root : N) sm (t : N) :
  bool_decide (is_Some sm) = true -> valid_time t = true ->
  total (setPitchAtTime n root sm t).
Proof.
  intros Hs Ht. unfold setPitchAtTime. rewrite Hs, Ht. cbn [andb].
  repeat total_step.
Qed.
End Nodes.

(** One step of a proof that a computation takes back no identifier. *)
Ltac grows_step :=
  match goal with
  | |- grows (bind _ _) => apply grows_bind; [|intros ?]
  | |- grows (for_each _ _) => apply grows_for_each; intros ?
  | |- grows (create _) => apply grows_create
  | |- grows (if ?b then _ else _) => destruct b
  | |- grows (match ?x with _ => _ end) => destruct x
  | |- grows (ret _) => apply grows_id; intros ?; reflexivity
  | |- grows throw => apply grows_id; intros ?; reflexivity
  | |- grows (get _) => apply grows_id; intros ?; reflexivity
  | |- grows (try_catch ?m) => apply grows_keeps; repeat keeps_step
  | |- grows (modify _) => apply grows_id; intros ?; reflexivity
  | |- grows ?m =>
      let h := head_of m in
      unfold h
  end.

(** *** [scheduleEventVoice] *)

Section VoiceSpec.
Local Open Scope Q_scope.

Lemma valid_time_add (x k : xnum) :
  valid_time x = true -> valid_time k = true ->
  valid_time (x + k)%js = true.
Proof.
  intros Hx Hk. apply valid_time_inv in Hx as (q & -> & Hq).
  apply valid_time_inv in Hk as (r & -> & Hr). cbn.
  apply valid_time_fin. lra.
Qed.

Lemma hoare_pure {A} (phi : Prop) (P : World xnum -> Prop) (m : M xnum A)
    (Q : A -> World xnum -> Prop) (E : World xnum -> Prop) :
  (phi -> hoare P m Q E) -> hoare (fun w => phi /\ P w) m Q E.
Proof. intros Hm w [Hphi Hw]. apply (Hm Hphi w Hw). Qed.
End VoiceSpec.

(** The times and values handed to the platform are ones it accepts. *)
Ltac valid_solver :=
  first
    [ assumption
    | apply panPos_finite | apply peakGain_finite | apply noisePeak_finite
    | apply centerFreq_finite | apply semis_defined
    | apply valid_time_add; valid_solver
    | vm_compute; reflexivity ].

(** [total_step], with the platform calls that check their arguments. *)
Ltac total_v :=
  match goal with
  | |- total (setValueAtTime _ _ _ _) =>
      apply total_setValueAtTime; valid_solver
  | |- total (linearRampToValueAtTime _ _ _ _) =>
      apply total_linearRamp; valid_solver
  | |- total (cancelScheduledValues _ _ _) =>
      apply total_cancel; valid_solver
  | |- total (setPitchAtTime _ _ _ _) =>
      apply total_setPitch; valid_solver
  | _ => total_step
  end.

(** Step over a call that starts no source and creates no node. *)
Ltac frame_next :=
  match goal with
  | |- hoare _ (bind currentTime _) _ _ => fail 1
  | |- hoare ?P (bind _ _) _ _ =>
      apply hoare_bind with (R := fun _ => P);
      [ apply nodes_at_frame;
        [ solve [repeat total_v] | solve [repeat keeps_step]
        | solve [repeat grows_step] ]
      | intros ? ]
  end.

(** Step over the creation of a node, naming its identifier. *)
Ltac create_next n Hn :=
  match goal with
  | |- hoare (nodes_at ?c ?L ?S ?n0) (bind (create ?k) _) _ _ =>
      apply hoare_bind with
        (R := fun n' w => (n0 <= n')%nat
                          /\ nodes_at c L S (Datatypes.S n') w);
      [ apply nodes_at_create | intros n; apply hoare_pure; intros Hn ]
  end.

Section VoiceSpec2.
Local Open Scope Q_scope.

Lemma scheduleEventVoice_spec (d : DroneNodes) (t c : Q)
    (mag lat depthKm : xnum) (L : list node_id)
    (S : gmap node_id source) (n0 : node_id) (E : World xnum -> Prop) :
  0 <= c -> 0 <= t ->
  (forall n, (n0 <= n)%nat -> S !! n = None) ->
  (forall n, n ∈ L -> (n < n0)%nat) ->
  hoare (nodes_at (XFin c) L S n0)
    (scheduleEventVoice d (XFin t) mag lat depthKm)
    (fun _ w =>
       exists osc noise n1 st1 st2,
         (n0 <= osc)%nat /\ (osc < noise)%nat /\ (noise < n1)%nat
         /\ nodes_at (XFin c) (L ++ [osc; noise])
              (<[noise := started (safeStart (XFin c) (XFin t)) st2]>
                 (<[osc := started (safeStart (XFin c) (XFin t)) st1]> S))
              n1 w)
    E.
Proof.
  intros Hc Ht Hfresh HL.
  destruct (safeStart_fin c t) as (s & Hs & Hcs & _).
  pose proof (valid_time_fin t Ht) as Hvt.
  assert (valid_time (safeStart (XFin c) (XFin t)) = true) as Hvs
    by (rewrite Hs; apply valid_time_fin; lra).
  unfold scheduleEventVoice. cbv zeta.
  create_next voicePan HvoicePan.
  frame_next.
  create_next osc Hosc.
  frame_next. frame_next. frame_next.
  apply hoare_bind with
    (R := fun now w => now = XFin c
                       /\ nodes_at (XFin c) L S (Datatypes.S osc) w);
    [apply nodes_at_currentTime | intros now; apply hoare_pure; intros ->].
  do 6 frame_next.
  set (s0 := safeStart (XFin c) (XFin t)) in *.
  assert (S !! osc = None) as HSosc by (apply Hfresh; lia).
  apply hoare_bind with
    (R := fun _ => nodes_at (XFin c) L (<[osc := started s0 None]> S)
                     (Datatypes.S osc));
    [apply nodes_at_sourceStart; assumption | intros _].
  apply hoare_bind with
    (R := fun _ =>
            nodes_at (XFin c) L
              (<[osc := started s0 (Some (XFin t + of_Z 5 + dec 5 1)%js)]> S)
              (Datatypes.S osc)).
  { apply nodes_at_restop. valid_solver. }
  intros _.
  set (S1 := <[osc := started s0 (Some (XFin t + of_Z 5 + dec 5 1)%js)]> S).
  assert (osc ∉ L) as HoscL by (intros Hin; apply HL in Hin; lia).
  apply hoare_bind with
    (R := fun _ => nodes_at (XFin c) (L ++ [osc]) S1 (Datatypes.S osc));
    [apply nodes_at_transient_add; assumption | intros _].
  create_next noise Hnoise.
  do 14 frame_next.
  assert (S1 !! noise = None) as HSnoise.
  { unfold S1. rewrite lookup_insert_ne by lia. apply Hfresh. lia. }
  apply hoare_bind with
    (R := fun _ => nodes_at (XFin c) (L ++ [osc])
                     (<[noise := started s0 None]> S1)
                     (Datatypes.S noise));
    [apply nodes_at_sourceStart; assumption | intros _].
  apply hoare_bind with
    (R := fun _ =>
            nodes_at (XFin c) (L ++ [osc])
              (<[noise := started s0 (Some (XFin t + dec 35 1 + dec 5 1)%js)]>
                 S1)
              (Datatypes.S noise)).
  { apply nodes_at_restop. valid_solver. }
  intros _.
  assert (noise ∉ L ++ [osc]) as HnoiseL.
  { intros Hin. apply elem_of_app in Hin as [Hin | Hin].
    - apply HL in Hin. lia.
    - apply list_elem_of_singleton in Hin. lia. }
  intros w Hw.
  pose proof (nodes_at_transient_add _ _ _ _ noise E HnoiseL w Hw) as Hadd.
  destruct (transientNodes_add noise w) as [[[]|] w']; [|exact Hadd].
  eexists osc, noise, (Datatypes.S noise), _, _.
  split_and!; [lia | lia | lia |].
  rewrite <- app_assoc in Hadd. exact Hadd.
Qed.
End VoiceSpec2.

(** *** [ensureDrone] *)

Section DroneSpec.
Local Open Scope Q_scope.

(** The identifiers from [n0] on are unused: no source has one, no
    transient node has one. *)
Definition fresh_above (S : gmap node_id (@source xnum))
    (L : list node_id) (n0 : node_id) : Prop :=
  (forall n, (n0 <= n)%nat -> S !! n = None)
  /\ (forall n, n ∈ L -> (n < n0)%nat).

Lemma fresh_above_mono S L n0 n1 :
  (n0 <= n1)%nat -> fresh_above S L n0 -> fresh_above S L n1.
Proof.
  intros Hle [HS HL]. split.
  - intros n Hn. apply HS. lia.
  - intros n Hn. apply HL in Hn. lia.
Qed.

Lemma fresh_above_insert S L n0 n (s : source) :
  (n < n0)%nat -> fresh_above S L n0 -> fresh_above (<[n := s]> S) L n0.
Proof.
  intros Hlt [HS HL]. split; [|exact HL].
  intros m Hm. rewrite lookup_insert_ne by lia. apply HS, Hm.
Qed.

Lemma ensureDrone_spec (c : Q) (L : list node_id)
    (S : gmap node_id source) (n0 : node_id) (E : World xnum -> Prop) :
  0 <= c -> fresh_above S L n0 ->
  hoare (nodes_at (XFin c) L S n0) ensureDrone
    (fun _ w => exists S' n1,
                  (n0 <= n1)%nat /\ nodes_at (XFin c) L S' n1 w
                  /\ fresh_above S' L n1
                  /\ (forall n, (n < n0)%nat -> S' !! n = S !! n))
    E.
Proof.
  intros Hc Hfresh. pose proof Hfresh as [HS HL].
  pose proof (valid_time_fin c Hc) as Hvc.
  unfold ensureDrone. frame_next. destruct a as [d|].
  { intros w Hw. cbn. exists S, n0. split_and!; auto. }
  create_next osc1 Hosc1. create_next osc2 Hosc2. create_next osc3 Hosc3.
  repeat frame_next.
  apply hoare_bind with
    (R := fun now w => now = XFin c
                       /\ nodes_at (XFin c) L S (Datatypes.S osc3) w);
    [apply nodes_at_currentTime | intros now; apply hoare_pure; intros ->].
  apply hoare_bind with
    (R := fun _ => nodes_at (XFin c) L
                     (<[osc1 := started (XFin c) None]> S)
                     (Datatypes.S osc3));
    [apply nodes_at_sourceStart; [apply HS; lia | exact Hvc] | intros _].
  apply hoare_bind with
    (R := fun _ => nodes_at (XFin c) L
                     (<[osc2 := started (XFin c) None]>
                        (<[osc1 := started (XFin c) None]> S))
                     (Datatypes.S osc3)).
  { apply nodes_at_sourceStart; [|exact Hvc].
    rewrite lookup_insert_ne by lia. apply HS. lia. }
  intros _.
  apply hoare_bind with
    (R := fun _ => nodes_at (XFin c) L
                     (<[osc3 := started (XFin c) None]>
                        (<[osc2 := started (XFin c) None]>
                           (<[osc1 := started (XFin c) None]> S)))
                     (Datatypes.S osc3)).
  { apply nodes_at_sourceStart; [|exact Hvc].
    rewrite !lookup_insert_ne by lia. apply HS. lia. }
  intros _. cbv zeta. frame_next.
  intros w Hw. cbn. eexists _, (Datatypes.S osc3).
  split_and!; [lia | exact Hw | |].
  - repeat apply fresh_above_insert; try lia.
    apply (fresh_above_mono S L n0); [lia | exact Hfresh].
  - intros n Hn. rewrite !lookup_insert_ne by lia. reflexivity.
Qed.
End DroneSpec.

(** *** [start] *)

Section StartSpec.
Local Open Scope Q_scope.

(** When each of the nodes [ns] was started. *)
Definition starts (S : gmap node_id (@source xnum)) (ns : list node_id)
  : list (option xnum) :=
  map (fun n => src_start <$> S !! n) ns.

(** The start times [start] asks for: two sources per event, both at the
    event's [safeStart], in input order. *)
Definition voice_starts (now : xnum) (onset : @EarthquakeFeature xnum -> xnum)
    (quakes : list (@EarthquakeFeature xnum)) : list (option xnum) :=
  flat_map (fun f => [Some (safeStart now (onset f));
                      Some (safeStart now (onset f))]) quakes.

Definition valid_onset (onset : @EarthquakeFeature xnum -> xnum)
    (f : @EarthquakeFeature xnum) : Prop :=
  valid_time (onset f) = true.

Lemma schedule_loop_spec (d : DroneNodes) (c : Q)
    (onset : @EarthquakeFeature xnum -> xnum) (visual : @EarthquakeFeature xnum -> M xnum unit)
    (E : World xnum -> Prop) :
  0 <= c ->
  (forall f, total (visual f)) ->
  (forall f, keeps mview (visual f)) ->
  (forall f, grows (visual f)) ->
  forall rest, Forall (valid_onset onset) rest ->
  forall L S n0, fresh_above S L n0 ->
  hoare (nodes_at (XFin c) L S n0)
    (for_each rest (fun feature =>
       bind (scheduleEventVoice d (onset feature) (mag feature)
               (lat feature) (depthKm feature))
            (fun _ => visual feature)))
    (fun _ w =>
       exists new S' n1,
         (n0 <= n1)%nat
         /\ nodes_at (XFin c) (L ++ new) S' n1 w
         /\ fresh_above S' (L ++ new) n1
         /\ (forall n, (n < n0)%nat -> S' !! n = S !! n)
         /\ starts S' new = voice_starts (XFin c) onset rest)
    E.
Proof.
  intros Hc Hvt Hvk Hvg rest. induction rest as [|f rest IH];
    intros Hvalid L S n0 Hfresh.
  - intros w Hw. cbn. exists [], S, n0. rewrite app_nil_r.
    split_and!; auto.
  - apply Forall_cons in Hvalid as [Hf Hrest].
    apply valid_time_inv in Hf as (t & Ht & Ht0).
    cbn [for_each].
    apply hoare_bind with
      (R := fun _ w =>
         exists osc noise n1 st1 st2,
           (n0 <= osc)%nat /\ (osc < noise)%nat /\ (noise < n1)%nat
           /\ nodes_at (XFin c) (L ++ [osc; noise])
                (<[noise := started (safeStart (XFin c) (XFin t)) st2]>
                   (<[osc := started (safeStart (XFin c) (XFin t)) st1]> S))
                n1 w).
    { destruct Hfresh as [HS HL].
      apply hoare_bind with
        (R := fun _ w =>
           exists osc noise n1 st1 st2,
             (n0 <= osc)%nat /\ (osc < noise)%nat /\ (noise < n1)%nat
             /\ nodes_at (XFin c) (L ++ [osc; noise])
                  (<[noise := started (safeStart (XFin c) (XFin t)) st2]>
                     (<[osc := started (safeStart (XFin c) (XFin t)) st1]> S))
                  n1 w).
      - rewrite Ht. apply scheduleEventVoice_spec; assumption.
      - intros _ w (osc & noise & n1 & st1 & st2 & H1 & H2 & H3 & Hw).
        pose proof (nodes_at_frame _ _ _ _ (visual f) E
                      (Hvt f) (Hvk f) (Hvg f) w Hw) as Hv.
        destruct (visual f w) as [[[]|] w']; [|exact Hv].
        exists osc, noise, n1, st1, st2. auto. }
    intros _ w (osc & noise & n1 & st1 & st2 & H1 & H2 & H3 & Hw).
    set (s0 := safeStart (XFin c) (XFin t)) in *.
    set (S1 := <[noise := started s0 st2]> (<[osc := started s0 st1]> S))
      in *.
    assert (fresh_above S1 (L ++ [osc; noise]) n1) as Hfresh1.
    { destruct Hfresh as [HS HL]. split.
      - intros n Hn. unfold S1. rewrite !lookup_insert_ne by lia.
        apply HS. lia.
      - intros n Hn. apply elem_of_app in Hn as [Hn | Hn].
        + apply HL in Hn. lia.
        + apply elem_of_cons in Hn as [-> | Hn]; [lia|].
          apply list_elem_of_singleton in Hn. lia. }
    pose proof (IH Hrest (L ++ [osc; noise]) S1 n1 Hfresh1 w Hw) as Hloop.
    destruct (for_each rest _ w) as [[[]|] w']; [|exact Hloop].
    destruct Hloop as (new & S' & n2 & Hn2 & Hw' & Hfresh' & Hsame & Hst).
    exists ([osc; noise] ++ new), S', n2.
    rewrite app_assoc. split_and!; [lia | exact Hw' | exact Hfresh' | |].
    + intros n Hn. rewrite Hsame by lia. unfold S1.
      rewrite !lookup_insert_ne by lia. reflexivity.
    + unfold starts in *. cbn [app map]. rewrite Hst.
      rewrite !Hsame by lia. unfold S1.
      rewrite lookup_insert_eq.
      rewrite lookup_insert_ne, lookup_insert_eq by lia.
      cbn. unfold s0. rewrite Ht. reflexivity.
Qed.

Lemma hoare_ex {A X} (P : X -> World xnum -> Prop) (m : M xnum A)
    (Q : A -> World xnum -> Prop) (E : World xnum -> Prop) :
  (forall x, hoare (P x) m Q E) -> hoare (fun w => exists x, P x w) m Q E.
Proof. intros Hm w [x Hw]. apply (Hm x w Hw). Qed.

Lemma hoare_pre {A} (P P' : World xnum -> Prop) (m : M xnum A)
    (Q : A -> World xnum -> Prop) (E : World xnum -> Prop) :
  (forall w, P w -> P' w) -> hoare P' m Q E -> hoare P m Q E.
Proof. intros HP Hm w Hw. apply (Hm w (HP w Hw)). Qed.

Lemma start_spec (c : Q) (L : list node_id) (S : gmap node_id source)
    (n0 : node_id) (q : EarthquakeFeature) (qs : list EarthquakeFeature)
    (D : xnum) (onEvent : bool) (fresh : ctx_state) :
  0 <= c -> fresh_above S L n0 ->
  Forall (valid_onset (onsetTime (of_Z 1) (XFin c) D (q :: qs))) (q :: qs) ->
  hoare (fun w => nodes_at (XFin c) L S n0 w
                  /\ hasAudioContext (plat w) = true)
    (start (Some (q :: qs)) D onEvent fresh true)
    (fun _ w =>
       exists new,
         transientNodesRef (hook w) = L ++ new
         /\ starts (sources (plat w)) new
            = voice_starts (XFin c)
                (onsetTime (of_Z 1) (XFin c) D (q :: qs)) (q :: qs))
    (fun _ => False).
Proof.
  intros Hc Hfresh Hvalid. pose proof (valid_time_fin c Hc) as Hvc.
  unfold start.
  apply hoare_bind with
    (R := fun ctx w => ctx <> None /\ nodes_at (XFin c) L S n0 w).
  { intros w [Hw Hsup]. unfold getAudioContext, isSupported, bind, get.
    rewrite Hsup. cbn. destruct (audioCtxRef (hook w)); cbn.
    - split; [discriminate | exact Hw].
    - split; [discriminate | exact Hw]. }
  intros [st|]; [|intros w [Hne _]; congruence].
  apply hoare_pure. intros _.
  apply hoare_bind with (R := fun _ => nodes_at (XFin c) L S n0).
  { destruct st; intros w Hw; cbn; exact Hw. }
  intros _.
  apply hoare_bind with
    (R := fun _ w => exists S' n1,
                  (n0 <= n1)%nat /\ nodes_at (XFin c) L S' n1 w
                  /\ fresh_above S' L n1
                  /\ (forall n, (n < n0)%nat -> S' !! n = S !! n));
    [apply ensureDrone_spec; assumption | intros drone].
  apply hoare_ex. intros S1. apply hoare_ex. intros n1.
  apply hoare_pure. intros Hn1.
  apply hoare_pre with
    (P' := fun w => fresh_above S1 L n1 /\ nodes_at (XFin c) L S1 n1 w);
    [intros w (Hw & Hf & _); split; [exact Hf | exact Hw] |].
  apply hoare_pure. intros Hfresh1.
  apply hoare_bind with
    (R := fun now w => now = XFin c /\ nodes_at (XFin c) L S1 n1 w);
    [apply nodes_at_currentTime | intros now; apply hoare_pure; intros ->].
  do 3 frame_next. cbv zeta. do 2 frame_next.
  apply hoare_bind with
    (R := fun _ w =>
       exists new S' n2,
         (n1 <= n2)%nat
         /\ nodes_at (XFin c) (L ++ new) S' n2 w
         /\ fresh_above S' (L ++ new) n2
         /\ (forall n, (n < n1)%nat -> S' !! n = S1 !! n)
         /\ starts S' new
            = voice_starts (XFin c)
                (onsetTime (of_Z 1) (XFin c) D (q :: qs)) (q :: qs)).
  { apply (schedule_loop_spec drone c
             (onsetTime (of_Z 1) (XFin c) D (q :: qs))
             (fun feature =>
                if onEvent
                then
                  bind currentTime (fun ct =>
                  bind (get (fun w => runs (hook w))) (fun run =>
                  bind (setTimeout (VisualCb run feature)
                          (Math_max (of_Z 0)
                             ((onsetTime (of_Z 1) (XFin c) D (q :: qs)
                                 feature - ct) * of_Z 1000)%js))
                       (fun timeoutId =>
                  modify (upd_hook (fun h =>
                    with_visualTimeoutsRef
                      (visualTimeoutsRef h ++ [timeoutId]) h)))))
                else ret tt));
      try assumption.
    - intros f. repeat total_step.
    - intros f. repeat keeps_step.
    - intros f. repeat grows_step. }
  intros _.
  apply hoare_ex. intros new. apply hoare_ex. intros S2.
  apply hoare_ex. intros n2.
  apply hoare_pre with
    (P' := fun w => starts S2 new
                    = voice_starts (XFin c)
                        (onsetTime (of_Z 1) (XFin c) D (q :: qs)) (q :: qs)
                    /\ nodes_at (XFin c) (L ++ new) S2 n2 w);
    [intros w (_ & Hw & _ & _ & Hst); split; [exact Hst | exact Hw] |].
  apply hoare_pure. intros Hst.
  do 4 frame_next.
  intros w (_ & HL' & HS' & _). cbn. exists new. rewrite HS'. auto.
Qed.
End StartSpec.

(** *** Node identifiers are fresh in every reachable state *)

Section NodesInvariant.
Local Open Scope Q_scope.

(** Node identifiers are handed out in order: no started source and no
    transient node has one that was not handed out yet. *)
Definition nodes_inv (w : World xnum) : Prop :=
  fresh_above (sources (plat w)) (transientNodesRef (hook w))
    (next_node (plat w)).

Definition good (w : World xnum) : Prop := sane w /\ nodes_inv w.

Lemma good_nodes_at (w : World xnum) :
  good w ->
  exists c, 0 <= c
    /\ nodes_at (XFin c) (transientNodesRef (hook w)) (sources (plat w))
         (next_node (plat w)) w
    /\ fresh_above (sources (plat w)) (transientNodesRef (hook w))
         (next_node (plat w)).
Proof.
  intros [(c & g & Hc & Hc0 & _) Hn]. exists c. unfold nodes_at.
  split_and!; auto.
Qed.

Lemma nodes_at_inv c L S n0 (w : World xnum) :
  nodes_at c L S n0 w -> fresh_above S L n0 -> nodes_inv w.
Proof.
  intros (_ & <- & <- & Hn) Hf. apply (fresh_above_mono _ _ n0); assumption.
Qed.

Definition pres_nodes {A} (m : M xnum A) : Prop :=
  hoare good m (fun _ => nodes_inv) nodes_inv.

Lemma pres_good {A} (m : M xnum A) :
  pres_nodes m -> keeps sview m -> pres good m.
Proof.
  intros Hn Hk w Hw. specialize (Hn w Hw). specialize (Hk w).
  destruct Hw as [Hs _].
  destruct (m w) as [[a|] w']; cbn in Hk; split; try exact Hn;
    eapply sane_view; eauto.
Qed.

Lemma pres_good_ensureDrone : pres good ensureDrone.
Proof.
  apply pres_good; [|repeat keeps_step].
  intros w Hw. destruct (good_nodes_at w Hw) as (c & Hc & Hat & Hf).
  pose proof (ensureDrone_spec c _ _ _ nodes_inv Hc Hf w Hat) as Hd.
  destruct (ensureDrone w) as [[d|] w']; [|exact Hd].
  destruct Hd as (S' & n1 & _ & Hat' & Hf' & _).
  eapply nodes_at_inv; eauto.
Qed.

Lemma pres_good_scheduleEventVoice d (time mag lat depthKm : xnum) :
  pres good (scheduleEventVoice d time mag lat depthKm).
Proof.
  apply pres_good; [|repeat keeps_step].
  intros w Hw. destruct (good_nodes_at w Hw) as (c & Hc & Hat & Hf).
  destruct (valid_time time) eqn:Hv.
  - apply valid_time_inv in Hv as (t & -> & Ht).
    destruct Hf as [HS HL].
    pose proof (scheduleEventVoice_spec d t c mag lat depthKm _ _ _
                  nodes_inv Hc Ht HS HL w Hat) as Hd.
    destruct (scheduleEventVoice d (XFin t) mag lat depthKm w)
      as [[[]|] w']; [|exact Hd].
    destruct Hd as (osc & noise & n1 & st1 & st2 & H1 & H2 & H3 & Hat').
    eapply nodes_at_inv; [exact Hat'|]. split.
    + intros n Hn. rewrite !lookup_insert_ne by lia. apply HS. lia.
    + intros n Hn. apply elem_of_app in Hn as [Hn | Hn].
      * apply HL in Hn. lia.
      * apply elem_of_cons in Hn as [-> | Hn]; [lia|].
        apply list_elem_of_singleton in Hn. lia.
  - unfold scheduleEventVoice, bind at 1. cbn.
    unfold bind at 1. unfold setValueAtTime. rewrite Hv, andb_false_r.
    cbn. destruct Hw as [_ Hn]. unfold nodes_inv. cbn.
    apply (fresh_above_mono _ _ (next_node (plat w))); [lia | exact Hn].
Qed.

Lemma pres_good_sourceStop (n : node_id) (t : xnum) :
  pres good (sourceStop n t).
Proof.
  apply pres_good; [|repeat keeps_step].
  intros w [_ [HS HL]]. unfold sourceStop, bind, get.
  destruct (sources (plat w) !! n) as [s|] eqn:Hn; cbn; [|split; assumption].
  destruct (negb (src_ended s) && valid_time t); cbn; [|split; assumption].
  split; [|exact HL]. intros m Hm. cbn in Hm |- *.
  destruct (decide (m = n)) as [-> | Hne].
  - rewrite HS in Hn by exact Hm. discriminate.
  - rewrite lookup_insert_ne by congruence. apply HS, Hm.
Qed.

Lemma pres_good_ended (n : node_id) : pres good (ended n).
Proof.
  apply pres_good; [|repeat keeps_step].
  intros w [_ [HS HL]]. unfold ended, bind, get.
  destruct (sources (plat w) !! n) as [s|] eqn:Hn; cbn; [|split; assumption].
  destruct (src_ended s); cbn; [split; assumption|].
  split.
  - intros m Hm. cbn in Hm |- *.
    destruct (decide (m = n)) as [-> | Hne].
    + rewrite HS in Hn by exact Hm. discriminate.
    + rewrite lookup_insert_ne by congruence. apply HS, Hm.
  - intros m Hm. cbn in Hm |- *. apply HL. apply list_elem_of_In in Hm.
    apply List.filter_In in Hm as [Hm _]. apply list_elem_of_In. exact Hm.
Qed.

Lemma pres_good_tick (c g : xnum) : pres good (tick c g).
Proof.
  intros w Hw.
  pose proof (step_sane w (ATick c g) (proj1 Hw)) as Hs.
  unfold step in Hs. cbn [perform] in Hs.
  assert (keeps (fun w : World xnum =>
                   (sources (plat w), transientNodesRef (hook w),
                    next_node (plat w))) (tick c g)) as Hk
    by (repeat keeps_step).
  specialize (Hk w). destruct Hw as [_ Hn].
  destruct (tick c g w) as [[[]|] w']; cbn in *;
    injection Hk as Hk1 Hk2 Hk3; split; try exact Hs;
    unfold nodes_inv; rewrite Hk1, Hk2, Hk3; exact Hn.
Qed.
End NodesInvariant.

(** Field updates that touch neither the sources nor the transient set. *)
Ltac good_leaf :=
  let w := fresh "w" in
  let Hs := fresh "Hs" in
  let HS := fresh "HS" in
  let HL := fresh "HL" in
  let n := fresh "n" in
  let Hn := fresh "Hn" in
  intros w [Hs [HS HL]]; split; [exact Hs|];
  split; cbn;
  [ intros n Hn; apply HS; lia
  | intros n Hn;
    first [ apply HL in Hn; lia
          | apply elem_of_nil in Hn; contradiction ] ].

(** One step of a proof that a computation preserves [good]. *)
Ltac good_step :=
  first
    [ apply pres_good_ensureDrone
    | apply pres_good_scheduleEventVoice
    | apply pres_good_sourceStop
    | pres_step good_leaf ].

Section GoodReachable.
Lemma step_good (w : World xnum) (a : action) : good w -> good (step w a).
Proof.
  intros Hg. unfold step.
  assert (pres good (perform a)) as Hp.
  { destruct a; cbn [perform].
    - repeat good_step.
    - repeat good_step.
    - repeat good_step.
    - repeat good_step.
    - apply pres_good_ended.
    - apply pres_good_tick. }
  specialize (Hp w Hg). destruct (perform a w) as [[[]|] w']; exact Hp.
Qed.

Lemma reachable_good (w : World xnum) : reachable w -> good w.
Proof.
  intros (supported & acts & ->).
  assert (good (init supported)) as Hi.
  { split.
    - exists 0%Q, 0%Q. cbn. repeat split. lra.
    - split; cbn; intros n Hn; [apply lookup_empty|].
      apply elem_of_nil in Hn. contradiction. }
  revert Hi. generalize (init (N:=xnum) supported).
  induction acts as [|a acts IH]; intros w Hw; [exact Hw|].
  cbn. apply IH. apply step_good. exact Hw.
Qed.
End GoodReachable.

(** *** No event is left out *)

Section NoEventSkipped.
Local Open Scope Q_scope.

Lemma voice_starts_length now onset (quakes : list (@EarthquakeFeature xnum)) :
  length (voice_starts now onset quakes) = (2 * length quakes)%nat.
Proof.
  induction quakes as [|f quakes IH]; [reflexivity|].
  unfold voice_starts in *. cbn [flat_map app length].
  rewrite IH. cbn [length]. lia.
Qed.

Lemma safeStart_past (now onset : xnum) :
  valid_time now = true -> valid_time onset = true ->
  (onset <? now)%js = true -> safeStart now onset = now.
Proof.
  intros Hn Ho Hlt.
  apply valid_time_inv in Hn as (c & -> & Hc).
  apply valid_time_inv in Ho as (t & -> & Ht).
  apply lt_fin in Hlt.
  destruct (safeStart_fin c t) as (s & -> & _ & Hs). rewrite Hs; [reflexivity|].
  lra.
Qed.

(** A voice asked for at any time the platform accepts, before the clock
    or not, is created and started: two new sources join the transient
    set, both started at [max(currentTime, time - 0.02)]. *)
Lemma voice_started (w : World xnum) (d : DroneNodes) (t mag lat depthKm : xnum) :
  good w -> valid_time t = true ->
  exists w' osc noise,
    scheduleEventVoice d t mag lat depthKm w = (Ret tt, w')
    /\ transientNodesRef (hook w')
       = transientNodesRef (hook w) ++ [osc; noise]
    /\ sources (plat w) !! osc = None
    /\ sources (plat w) !! noise = None
    /\ starts (sources (plat w')) [osc; noise]
       = [Some (safeStart (clock (plat w)) t);
          Some (safeStart (clock (plat w)) t)].
Proof.
  intros Hg Hvt.
  destruct (good_nodes_at w Hg) as (c & Hc & Hat & Hfr & HL).
  apply valid_time_inv in Hvt as (q & -> & Hq).
  pose proof Hat as (Hclock & _).
  pose proof (scheduleEventVoice_spec d q c mag lat depthKm _ _ _
                (fun _ => False) Hc Hq Hfr HL w Hat) as Hs.
  destruct (scheduleEventVoice d (XFin q) mag lat depthKm w)
    as [[[]|] w'] eqn:Hv; [|contradiction].
  destruct Hs as (osc & noise & n1 & st1 & st2 & Ho & Hon & Hn1 & Hat').
  destruct Hat' as (_ & HL' & HS' & _).
  exists w', osc, noise. rewrite Hclock.
  split_and!; try reflexivity; try assumption.
  - apply Hfr. exact Ho.
  - apply Hfr. lia.
  - unfold starts. rewrite HS'. cbn [map].
    rewrite lookup_insert_ne by lia.
    rewrite !lookup_insert_eq. reflexivity.
Qed.
(** C7: from every reachable state, a voice asked for at a target time
    the platform accepts (finite and not negative) is created and started
    even when the target is before the clock: [scheduleEventVoice] returns
    without throwing, two new sources (tone and noise) join the transient
    set, and both are started at [max(currentTime, time - 0.02)], which is
    the clock itself when the target is in the past.  So [start], on a
    platform with audio and a non-empty collection whose onsets are such
    times (the resume, if one is needed, succeeding), returns without
    throwing and leaves no event out: the transient set grows by two
    sources per event, in input order, each started at its clamped
    onset. *)
Theorem no_event_skipped (w : World xnum) (Hr : reachable w) :
  let now := clock (plat w) in
  (forall (d : DroneNodes) (t mag lat depthKm : xnum),
     valid_time t = true ->
     exists w' osc noise,
       scheduleEventVoice d t mag lat depthKm w = (Ret tt, w')
       /\ transientNodesRef (hook w')
          = transientNodesRef (hook w) ++ [osc; noise]
       /\ sources (plat w) !! osc = None
       /\ sources (plat w) !! noise = None
       /\ starts (sources (plat w')) [osc; noise]
          = [Some (safeStart now t); Some (safeStart now t)]
       /\ ((t <? now)%js = true -> safeStart now t = now))
  /\ (forall (q : EarthquakeFeature) (qs : list EarthquakeFeature)
             (D : xnum) (onEvent : bool) (fresh : ctx_state),
        let onset := onsetTime (of_Z 1) now D (q :: qs) in
        hasAudioContext (plat w) = true ->
        Forall (valid_onset onset) (q :: qs) ->
        exists w' new,
          start (Some (q :: qs)) D onEvent fresh true w = (Ret tt, w')
          /\ transientNodesRef (hook w') = transientNodesRef (hook w) ++ new
          /\ length new = (2 * length (q :: qs))%nat
          /\ starts (sources (plat w')) new
             = voice_starts now onset (q :: qs)
          /\ Forall (fun f => (onset f <? now)%js = true ->
                              safeStart now (onset f) = now) (q :: qs)).
Proof.
  intros now. subst now.
  pose proof (reachable_good w Hr) as Hg.
  destruct (good_nodes_at w Hg) as (c & Hc & Hat & Hf).
  pose proof Hat as (Hclock & _).
  split.
  - intros d t mag lat depthKm Hvt.
    destruct (voice_started w d t mag lat depthKm Hg Hvt)
      as (w' & osc & noise & Hs & HL & Ho & Hn & Hst).
    exists w', osc, noise. split_and!; try assumption.
    intros Hlt. apply safeStart_past; try assumption.
    rewrite Hclock. apply valid_time_fin, Hc.
  - intros q qs D onEvent fresh onset Hsup Hvalid. subst onset.
    rewrite Hclock in *.
    pose proof (start_spec c _ _ _ q qs D onEvent fresh Hc Hf Hvalid w
                  (conj Hat Hsup)) as Hs.
    destruct (start (Some (q :: qs)) D onEvent fresh true w)
      as [[[]|] w'] eqn:Hstart; [|contradiction].
    destruct Hs as (new & Hnew & Hst).
    exists w', new. split_and!; try assumption; try reflexivity.
    + rewrite <- (voice_starts_length (XFin c)
                    (onsetTime (of_Z 1) (XFin c) D (q :: qs)) (q :: qs)).
      rewrite <- Hst. unfold starts. rewrite length_map. reflexivity.
    + eapply Forall_impl; [exact Hvalid|]. intros f Hvf Hlt.
      apply safeStart_past; [apply valid_time_fin, Hc | exact Hvf | exact Hlt].
Qed.
End NoEventSkipped.

(** ** Onsets under a positive duration *)

Section PositiveDuration.
Local Open Scope Q_scope.

Definition finite_at_least (m : Q) (x : xnum) : Prop :=
  exists q, x = XFin q /\ m <= q.
Definition finite_at_most (m : Q) (x : xnum) : Prop :=
  exists q, x = XFin q /\ q <= m.

Lemma min_list_fin (x : xnum) (xs : list xnum) :
  Forall (fun x => isFinite x = true) (x :: xs) ->
  exists m, Math_min_list (x :: xs) = XFin m
            /\ Forall (finite_at_least m) (x :: xs)
            /\ XFin m ∈ x :: xs.
Proof.
  revert x. induction xs as [|y ys IH]; intros x Hall.
  - apply Forall_inv in Hall. apply isFinite_inv in Hall as (q & ->).
    exists q. unfold Math_min_list. cbn. split_and!; [reflexivity | | left].
    repeat constructor. exists q. split; [reflexivity | lra].
  - pose proof (Forall_inv Hall) as Hx. apply isFinite_inv in Hx as (q & ->).
    apply Forall_inv_tail in Hall.
    destruct (IH y Hall) as (m & Hm & Hle & Hin).
    unfold Math_min_list in *. cbn [foldr] in *. rewrite Hm. x_unfold.
    destruct (Qlt_le_dec m q) as [Hlt | Hge].
    + exists m. split_and!; [reflexivity | | right; exact Hin].
      constructor; [exists q; split; [reflexivity | lra] | exact Hle].
    + exists q. split_and!; [reflexivity | | left].
      constructor; [exists q; split; [reflexivity | lra] |].
      eapply Forall_impl; [exact Hle|]. intros z (p & -> & Hp).
      exists p. split; [reflexivity | lra].
Qed.

Lemma max_list_fin (x : xnum) (xs : list xnum) :
  Forall (fun x => isFinite x = true) (x :: xs) ->
  exists m, Math_max_list (x :: xs) = XFin m
            /\ Forall (finite_at_most m) (x :: xs).
Proof.
  revert x. induction xs as [|y ys IH]; intros x Hall.
  - apply Forall_inv in Hall. apply isFinite_inv in Hall as (q & ->).
    exists q. unfold Math_max_list. cbn. split; [reflexivity|].
    repeat constructor. exists q. split; [reflexivity | lra].
  - pose proof (Forall_inv Hall) as Hx. apply isFinite_inv in Hx as (q & ->).
    apply Forall_inv_tail in Hall.
    destruct (IH y Hall) as (m & Hm & Hle).
    unfold Math_max_list in *. cbn [foldr] in *. rewrite Hm. x_unfold.
    destruct (Qlt_le_dec q m) as [Hlt | Hge].
    + exists m. split; [reflexivity|].
      constructor; [exists q; split; [reflexivity | lra] | exact Hle].
    + exists q. split; [reflexivity|].
      constructor; [exists q; split; [reflexivity | lra] |].
      eapply Forall_impl; [exact Hle|]. intros z (p & -> & Hp).
      exists p. split; [reflexivity | lra].
Qed.

(** With finite timestamps and a positive duration every onset is at
    least [now + startOffset]: a time the platform accepts. *)
Lemma onsets_valid (now D : Q) (q : @EarthquakeFeature xnum)
    (qs : list (@EarthquakeFeature xnum)) :
  0 <= now -> 0 < D ->
  Forall (fun f => isFinite (time f) = true) (q :: qs) ->
  Forall (valid_onset (onsetTime (of_Z 1) (XFin now) (XFin D) (q :: qs)))
    (q :: qs).
Proof.
  intros Hnow HD Hfin.
  assert (Forall (fun x => isFinite x = true) (time q :: map time qs))
    as Hfin' by (apply (List.Forall_map time _ (q :: qs)); exact Hfin).
  destruct (min_list_fin _ _ Hfin') as (m & Hmin & Hle & Hin).
  destruct (max_list_fin _ _ Hfin') as (M & Hmax & Hge).
  assert (m <= M) as HmM.
  { rewrite Forall_forall in Hge. destruct (Hge _ Hin) as (p & Hp & HpM).
    injection Hp as <-. exact HpM. }
  change (time q :: map time qs) with (map time (q :: qs)) in *.
  fold (minTime (q :: qs)) in Hmin. fold (maxTime (q :: qs)) in Hmax.
  assert (exists s, spanMs (q :: qs) = XFin s /\ 0 < s) as (s & Hs & Hs0).
  { unfold spanMs, or_else, truthy. rewrite Hmin, Hmax. x_unfold.
    q_cases; eexists; (split; [reflexivity|]); unfold inject_Z in *; lra. }
  apply (List.Forall_map time _ (q :: qs)) in Hle.
  eapply Forall_impl; [exact Hle|]. intros f (T & HT & HmT).
  unfold valid_onset, onsetTime, timeScale. cbn in HT.
  rewrite Hs, Hmin, HT. x_unfold.
  assert (Exact.is_zero D = false) as HzD by (apply is_zero_false; lra).
  rewrite HzD.
  assert (0 < s / D) as Hsd by (apply Qlt_shift_div_l; lra).
  assert (Exact.is_zero (s / D) = false) as Hz by (apply is_zero_false; lra).
  rewrite Hz. apply valid_time_fin.
  assert (0 <= (T + - m) / (s / D))
    by (apply Qle_shift_div_l; [exact Hsd | lra]).
  unfold inject_Z. lra.
Qed.
End PositiveDuration.


(** The clock at 100 s and a negative duration: the second event's onset
    is 41 s, in the past. *)
Definition late_world : World xnum :=
  run (init true) [ATick (of_Z 100) (of_Z 0)].

Lemma no_event_skipped_witness :
  reachable late_world
  /\ hasAudioContext (plat late_world) = true
  /\ (onsetTime (of_Z 1) (clock (plat late_world)) (of_Z (-60))
        [quake_at 0; quake_at 1000] (quake_at 1000)
      <? clock (plat late_world)) = true
  /\ exists w' new,
       start (Some [quake_at 0; quake_at 1000]) (of_Z (-60)) true Suspended
         true late_world = (Ret tt, w')
       /\ length new = 4%nat
       /\ drop 2 (starts (sources (plat w')) new)
          = [Some (XFin 100); Some (XFin 100)].
Proof.
  assert (reachable late_world) as Hr by (eexists true, _; reflexivity).
  split; [exact Hr|]. split; [reflexivity|]. split; [reflexivity|].
  destruct (proj2 (no_event_skipped late_world Hr) (quake_at 0)
              [quake_at 1000] (of_Z (-60)) true Suspended eq_refl)
    as (w' & new & Hs & _ & Hlen & Hst & _).
  { repeat constructor. }
  exists w', new. split_and!; [exact Hs | exact Hlen |].
  rewrite Hst. vm_compute. reflexivity.
Defined.
